(** * Multi-scale detection merge of [Backend/app.py]

    A shallow embedding of the two pieces of logic in [app.py]:

    - [apply_nms], the overlap suppressor, which packs the boxes and
      scores of the detections into tensors, delegates to
      [torchvision.ops.nms] and indexes the detection list with the
      indices it gets back;
    - [detect], the request handler: decode, run the detector at the
      three scales, accumulate, suppress.

    Numbers.  The fields of a detection are Python floats, written as
    rationals ([Q]).  The arithmetic is given twice.

    - [apply_nms] computes with the exact rationals; what IEEE division
      does when the divisor is zero is written out ([ieee], [fdiv]).
      It carries the properties that rounding cannot change: what is
      filtered, that labels are not looked at, degenerate boxes, the
      handler around it.
    - [F32.apply_nms] is the same code with the float32 conversions of
      [torch.tensor] and the float32 arithmetic of the kernel, bit for
      bit, on [SpecFloat].  The properties that depend on the order of
      the scores or on the value of the IoU are stated for it, since
      rounding changes both ([rounding_changes_the_outcome]). *)

From Stdlib Require Import QArith Qminmax Lia Lra Psatz String Sorted SpecFloat.
From stdpp Require Import base option list sorting.

(** ** Data model *)

(** The ["box"] dict of a detection: an axis-aligned rectangle. *)
Record Box := mkBox { xmin : Q; ymin : Q; xmax : Q; ymax : Q }.

(** One entry of the [detections] list: the dict
    [{"label": ..., "score": ..., "box": {...}}].  There is no other
    key: in particular the inference size is not recorded. *)
Record Detection := mkDetection { label : string; score : Q; box : Box }.

(** The data-model invariant of the spec: [xmin <= xmax], [ymin <= ymax]. *)
Definition wf_box (b : Box) : Prop :=
  (xmin b <= xmax b)%Q /\ (ymin b <= ymax b)%Q.

#[global] Instance Box_inhabited : Inhabited Box := populate (mkBox 0 0 0 0).

(** ** Float results that are not numbers *)

(** Outcome of a float division: not-a-number, an infinity, or a finite
    value. *)
Inductive ieee : Type :=
| NaN
| Inf (negative : bool)
| Finite (q : Q).

Definition Qltb (a b : Q) : bool := negb (Qle_bool b a).

(** [a / b] on floats: [0/0] is NaN, [a/0] is an infinity with the sign
    of [a]; nothing is raised. *)
Definition fdiv (a b : Q) : ieee :=
  if Qeq_bool b 0 then
    if Qeq_bool a 0 then NaN else Inf (Qltb a 0)
  else Finite (a / b).

(** [v > t] on floats: every comparison with NaN is false. *)
Definition fgt (v : ieee) (t : Q) : bool :=
  match v with
  | NaN => false
  | Inf negative => negb negative
  | Finite q => Qltb t q
  end.

(** [v == t] on floats. *)
Definition feq (v : ieee) (t : Q) : bool :=
  match v with
  | Finite q => Qeq_bool q t
  | _ => false
  end.

(** ** [torchvision.ops.nms]

    The routine [apply_nms] calls.  It is library code, documented as
    "NMS iteratively removes lower scoring boxes which have an IoU
    greater than iou_threshold with another (higher scoring) box" and
    as returning the indices kept "sorted in decreasing order of
    scores".  The definitions follow its CPU kernel:
    [areas = (x2 - x1) * (y2 - y1)], [order] is the stable descending
    argsort of the scores, and a double loop over [order] sets
    [suppressed[j] = 1] when [ovr > iou_threshold]. *)

Definition area (b : Box) : Q := (xmax b - xmin b) * (ymax b - ymin b).

Definition inter (a b : Box) : Q :=
  let xx1 := Qmax (xmin a) (xmin b) in
  let yy1 := Qmax (ymin a) (ymin b) in
  let xx2 := Qmin (xmax a) (xmax b) in
  let yy2 := Qmin (ymax a) (ymax b) in
  let w := Qmax 0 (xx2 - xx1) in
  let h := Qmax 0 (yy2 - yy1) in
  w * h.

Definition union_area (a b : Box) : Q := area a + area b - inter a b.

(** [ovr = inter / (iarea + areas[j] - inter)]. *)
Definition ovr (a b : Box) : ieee := fdiv (inter a b) (union_area a b).

(** Stable sort, largest key first: [x] goes in front of the first
    element whose key is not strictly larger. *)
Fixpoint insert_desc {A : Type} (key : A -> Q) (x : A) (l : list A) : list A :=
  match l with
  | [] => [x]
  | y :: l' =>
      if Qltb (key x) (key y) then y :: insert_desc key x l' else x :: y :: l'
  end.

Definition sort_desc {A : Type} (key : A -> Q) (l : list A) : list A :=
  foldr (insert_desc key) [] l.

(** [scores.sort(stable=True, descending=True)], second component: the
    positions of the scores in sorted order. *)
Definition argsort_desc (scores : list Q) : list nat :=
  (sort_desc snd (zip (seq 0 (length scores)) scores)).*1.

(** Body of the inner loop [for _j in _i+1 .. ndets). *)
Definition nms_inner (boxes : list Box) (iou_threshold : Q) (order : list nat)
    (i : nat) (suppressed : list bool) (_j : nat) : list bool :=
  let j : nat := order !!! _j in
  if (suppressed !!! j : bool) then suppressed
  else if fgt (ovr (boxes !!! i) (boxes !!! j)) iou_threshold
       then <[j := true]> suppressed
       else suppressed.

(** Body of the outer loop [for _i in 0 .. ndets); the state is the
    [suppressed] array and the indices kept so far. *)
Definition nms_outer (boxes : list Box) (iou_threshold : Q) (order : list nat)
    (ndets : nat) (st : list bool * list nat) (_i : nat) : list bool * list nat :=
  let i : nat := order !!! _i in
  if (st.1 !!! i : bool) then st
  else (foldl (nms_inner boxes iou_threshold order i) st.1
          (seq (S _i) (ndets - S _i)),
        st.2 ++ [i]).

Definition nms (boxes : list Box) (scores : list Q) (iou_threshold : Q) : list nat :=
  match boxes with
  | [] => []
  | _ =>
      let order := argsort_desc scores in
      let ndets := length boxes in
      (foldl (nms_outer boxes iou_threshold order ndets)
         (replicate ndets false, []) (seq 0 ndets)).2
  end.

(** ** [apply_nms] *)

(** [detections[i] for i in keep]: an index out of range raises, which
    is [None] here. *)
Definition apply_nms (detections : list Detection) (iou_threshold : Q)
    : option (list Detection) :=
  match detections with
  | [] => Some []
  | _ =>
      let boxes := box <$> detections in
      let scores := score <$> detections in
      let keep := nms boxes scores iou_threshold in
      mapM (fun i => detections !! i) keep
  end.

Definition CONFIDENCE_THRESHOLD : Q := 4 # 10.
Definition IOU_THRESHOLD : Q := 5 # 10.

(** ** The request handler [detect] *)

(** One element of [r.boxes]: [box.conf[0]], [box.cls[0]], [box.xyxy[0]]. *)
Record RawBox := mkRawBox { conf : Q; cls : Z; xyxy : Box }.

(** One element of the list the detector returns. *)
Record Results := mkResults { boxes : list RawBox }.

(** What the handler hands back to the server. *)
Inductive response : Type :=
| JsonObject (fields : list (string * string))
| JsonDetections (final_detections : list Detection)
| Propagated.

Definition scales : list Z := [640; 960; 1280]%Z.

Section Handler.

(** The uploaded bytes and the decoded image are opaque. *)
Variables Contents Image : Type.

(** [Image.open(BytesIO(contents)).convert("RGB")]; [None] when it
    raises. *)
Variable decode : Contents -> option Image.

(** [cv2.cvtColor(np.array(image), cv2.COLOR_RGB2BGR)]. *)
Variable to_bgr : Image -> Image.

(** [model(image_bgr, imgsz=sz)]; [None] when the detector raises. *)
Variable model : Image -> Z -> option (list Results).

(** [model.names]. *)
Variable names : Z -> string.

(** The dict appended for a raw box; the inference size is not an
    argument. *)
Definition emit (b : RawBox) : Detection :=
  mkDetection (names (cls b)) (conf b) (xyxy b).

(** [if score >= CONFIDENCE_THRESHOLD: detections.append({...})]. *)
Definition visit_box (detections : list Detection) (b : RawBox) : list Detection :=
  if Qle_bool CONFIDENCE_THRESHOLD (conf b) then detections ++ [emit b]
  else detections.

(** [for r in results: for box in r.boxes: ...]. *)
Definition visit_results (detections : list Detection) (results : list Results)
    : list Detection :=
  foldl (fun acc r => foldl visit_box acc (boxes r)) detections results.

(** One turn of [for sz in scales].  The state is the [detections]
    list ([None] once an exception is propagating, after which no
    turn runs) and the log of the sizes the detector was called
    with. *)
Definition scale_step (image_bgr : Image)
    (st : option (list Detection) * list Z) (sz : Z)
    : option (list Detection) * list Z :=
  match st.1 with
  | None => st
  | Some detections =>
      (visit_results detections <$> model image_bgr sz, st.2 ++ [sz])
  end.

(** The multi-scale loop, from [detections = []] to the end of
    [for sz in scales]. *)
Definition accumulate (image_bgr : Image) : option (list Detection) * list Z :=
  foldl (scale_step image_bgr) (Some [], []) scales.

(** The handler: the response and the log of detector calls. *)
Definition detect (contents : Contents) : response * list Z :=
  match decode contents with
  | None => (JsonObject [("error", "Invalid image")]%string, [])
  | Some image =>
      let image_bgr := to_bgr image in
      let st := accumulate image_bgr in
      match st.1 with
      | None => (Propagated, st.2)
      | Some detections =>
          match apply_nms detections IOU_THRESHOLD with
          | Some final_detections => (JsonDetections final_detections, st.2)
          | None => (Propagated, st.2)
          end
      end
  end.

End Handler.

Arguments emit names b /.
Arguments detect {Contents Image} decode to_bgr model names contents.
Arguments accumulate {Image} model names image_bgr.

(** ** The suppressor as the specification words it *)

(** "IoU = area(A ∩ B) / area(A ∪ B) ... treat union area of 0 as
    IoU = 0". *)
Definition spec_iou (a b : Box) : Q :=
  if Qeq_bool (union_area a b) 0 then 0 else inter a b / union_area a b.

(** "Repeatedly take the highest-scoring remaining Detection, add it to
    kept, and discard every remaining Detection" that it suppresses.
    [fuel] bounds the number of rounds; the length of the list is
    enough. *)
Fixpoint greedy_select {A : Type} (suppresses : A -> A -> bool) (fuel : nat)
    (remaining : list A) : list A :=
  match fuel, remaining with
  | S fuel', d :: rest =>
      d :: greedy_select suppresses fuel'
             (filter (fun d' => suppresses d d' = false) rest)
  | _, _ => []
  end.

(** The specification's test: a detection is discarded when its IoU
    with the one just kept is [>=] the threshold. *)
Definition spec_suppresses (iou_threshold : Q) (d d' : Detection) : bool :=
  Qle_bool iou_threshold (spec_iou (box d) (box d')).

Definition spec_nms (detections : list Detection) (iou_threshold : Q)
    : list Detection :=
  greedy_select (spec_suppresses iou_threshold) (length detections)
    (sort_desc score detections).

(** ** Auxiliary definitions for the proofs *)

(** The test the kernel's inner loop makes, on two boxes. *)
Definition kernel_suppresses (iou_threshold : Q) (a b : Box) : bool :=
  fgt (ovr a b) iou_threshold.

(** The double loop of the kernel with the test on two indices left
    open: [test i j] stands for [ovr > iou_threshold] on the boxes at
    [i] and [j]. *)
Definition scan_inner (test : nat -> nat -> bool) (order : list nat) (i : nat)
    (suppressed : list bool) (_j : nat) : list bool :=
  let j : nat := order !!! _j in
  if (suppressed !!! j : bool) then suppressed
  else if test i j then <[j := true]> suppressed else suppressed.

Definition scan_outer (test : nat -> nat -> bool) (order : list nat) (ndets : nat)
    (st : list bool * list nat) (_i : nat) : list bool * list nat :=
  let i : nat := order !!! _i in
  if (st.1 !!! i : bool) then st
  else (foldl (scan_inner test order i) st.1 (seq (S _i) (ndets - S _i)),
        st.2 ++ [i]).

(** The inner loop body on the index [j] itself. *)
Definition mark (test : nat -> nat -> bool) (i : nat)
    (suppressed : list bool) (j : nat) : list bool :=
  if (suppressed !!! j : bool) then suppressed
  else if test i j then <[j := true]> suppressed else suppressed.

(** The outer loop as a recursion over the part of [order] still to be
    visited. *)
Fixpoint sweep (test : nat -> nat -> bool) (suppressed : list bool)
    (keep : list nat) (todo : list nat) : list bool * list nat :=
  match todo with
  | [] => (suppressed, keep)
  | i :: rest =>
      if (suppressed !!! i : bool) then sweep test suppressed keep rest
      else sweep test (foldl (mark test i) suppressed rest) (keep ++ [i]) rest
  end.

(** The raw boxes that clear the confidence threshold. *)
Definition confident (bs : list RawBox) : list RawBox :=
  filter (fun b => Qle_bool CONFIDENCE_THRESHOLD (conf b) = true) bs.

(** Descending order of a key. *)
Definition desc {A : Type} (key : A -> Q) (x y : A) : Prop := (key y <= key x)%Q.

(** A detection with its label replaced and nothing else touched. *)
Definition relabel (g : string -> string) (d : Detection) : Detection :=
  mkDetection (g (label d)) (score d) (box d).

(** ** The kernel's test in IEEE arithmetic *)

Module Binary32.

(** The tensors are [float32]: 24 bits of precision. *)
Definition prec : Z := 24.
Definition emax : Z := 128.

(** The rational [q] rounded to nearest; correctly rounded when the
    numerator and the denominator are below [2^24]. *)
Definition of_Q (q : Q) : spec_float :=
  SFdiv prec emax (binary_normalize prec emax (Qnum q) 0 false)
    (binary_normalize prec emax (Zpos (Qden q)) 0 false).

(** [std::max(a, b)] is [(a < b) ? b : a], [std::min(a, b)] is
    [(b < a) ? b : a]. *)
Definition fmax (a b : spec_float) : spec_float := if SFltb a b then b else a.
Definition fmin (a b : spec_float) : spec_float := if SFltb b a then b else a.

Definition fsub := SFsub prec emax.
Definition fadd := SFadd prec emax.
Definition fmul := SFmul prec emax.

Definition area32 (b : Box) : spec_float :=
  fmul (fsub (of_Q (xmax b)) (of_Q (xmin b))) (fsub (of_Q (ymax b)) (of_Q (ymin b))).

Definition ovr32 (a b : Box) : spec_float :=
  let xx1 := fmax (of_Q (xmin a)) (of_Q (xmin b)) in
  let yy1 := fmax (of_Q (ymin a)) (of_Q (ymin b)) in
  let xx2 := fmin (of_Q (xmax a)) (of_Q (xmax b)) in
  let yy2 := fmin (of_Q (ymax a)) (of_Q (ymax b)) in
  let w := fmax (S754_zero false) (fsub xx2 xx1) in
  let h := fmax (S754_zero false) (fsub yy2 yy1) in
  let inter := fmul w h in
  SFdiv prec emax inter (fsub (fadd (area32 a) (area32 b)) inter).

(** [iou_threshold] is a [double]; in [ovr > iou_threshold] the float
    is widened, which is exact. *)
Definition double_of_Q (q : Q) : spec_float :=
  SFdiv 53 1024 (binary_normalize 53 1024 (Qnum q) 0 false)
    (binary_normalize 53 1024 (Zpos (Qden q)) 0 false).

Definition widen (x : spec_float) : spec_float :=
  match x with
  | S754_finite s m e => binary_normalize 53 1024 (cond_Zopp s (Zpos m)) e s
  | _ => x
  end.

Definition suppresses32 (iou_threshold : Q) (a b : Box) : bool :=
  SFltb (double_of_Q iou_threshold) (widen (ovr32 a b)).

End Binary32.

(** ** Python floats and float32 tensors

    The numbers of a detection are Python floats, that is binary64
    values; [torch.tensor] stores them as float32 and the kernel
    computes in float32.  A field [q] of a [Detection] stands for the
    Python float nearest to [q] (a float is that float itself). *)

(** [q] rounded to nearest, ties to even, with [prec] bits and exponent
    bound [emax].  The quotient is taken with three bits more than
    needed and a sticky bit, which [binary_normalize] rounds off. *)
Definition round_Q (prec emax : Z) (q : Q) : spec_float :=
  let n := Qnum q in
  let d := Zpos (Qden q) in
  let s := Z.max 0 (prec + 3 + Z.log2 d - Z.log2 (Z.abs n)) in
  let a := (Z.abs n * 2 ^ s)%Z in
  let m := (2 * (a / d) + (if a mod d =? 0 then 0 else 1))%Z in
  binary_normalize prec emax (if (n <? 0)%Z then (- m)%Z else m) (- s - 1)
    (n <? 0)%Z.

Definition is_number (x : spec_float) : Prop := x <> S754_nan.

(** Stable sort that puts [x] in front of the first element it is not
    less than: largest first when [ltb] is "less than". *)
Fixpoint insert_by {A : Type} (ltb : A -> A -> bool) (x : A) (l : list A) : list A :=
  match l with
  | [] => [x]
  | y :: l' => if ltb x y then y :: insert_by ltb x l' else x :: y :: l'
  end.

Definition sort_by {A : Type} (ltb : A -> A -> bool) (l : list A) : list A :=
  foldr (insert_by ltb) [] l.

Module F32.

(** The Python float of [q]. *)
Definition double (q : Q) : spec_float := round_Q 53 1024 q.

(** A Python float stored in a float32 tensor. *)
Definition narrow (x : spec_float) : spec_float :=
  match x with
  | S754_finite s m e =>
      binary_normalize Binary32.prec Binary32.emax (cond_Zopp s (Zpos m)) e s
  | _ => x
  end.

Definition of_Q (q : Q) : spec_float := narrow (double q).

(** A row [xmin, ymin, xmax, ymax] of the [boxes] tensor. *)
Record Row := mkRow { x1 : spec_float; y1 : spec_float; x2 : spec_float; y2 : spec_float }.

Definition row (b : Box) : Row :=
  mkRow (of_Q (xmin b)) (of_Q (ymin b)) (of_Q (xmax b)) (of_Q (ymax b)).

#[global] Instance Row_inhabited : Inhabited Row :=
  populate (mkRow S754_nan S754_nan S754_nan S754_nan).

(** [areas = (x2 - x1) * (y2 - y1)]. *)
Definition area (r : Row) : spec_float :=
  Binary32.fmul (Binary32.fsub (x2 r) (x1 r)) (Binary32.fsub (y2 r) (y1 r)).

(** [ovr = inter / (iarea + areas[j] - inter)]. *)
Definition ovr (a b : Row) : spec_float :=
  let xx1 := Binary32.fmax (x1 a) (x1 b) in
  let yy1 := Binary32.fmax (y1 a) (y1 b) in
  let xx2 := Binary32.fmin (x2 a) (x2 b) in
  let yy2 := Binary32.fmin (y2 a) (y2 b) in
  let w := Binary32.fmax (S754_zero false) (Binary32.fsub xx2 xx1) in
  let h := Binary32.fmax (S754_zero false) (Binary32.fsub yy2 yy1) in
  let inter := Binary32.fmul w h in
  SFdiv Binary32.prec Binary32.emax inter
    (Binary32.fsub (Binary32.fadd (area a) (area b)) inter).

(** [ovr > iou_threshold], the float widened to the [double]
    threshold. *)
Definition gt (v iou_threshold : spec_float) : bool :=
  SFltb iou_threshold (Binary32.widen v).

(** [scores.sort(stable=True, descending=True)], second component. *)
Definition argsort_desc (scores : list spec_float) : list nat :=
  (sort_by (fun p p' : nat * spec_float => SFltb p.2 p'.2)
     (zip (seq 0 (length scores)) scores)).*1.

Definition nms_inner (boxes : list Row) (iou_threshold : spec_float)
    (order : list nat) (i : nat) (suppressed : list bool) (_j : nat) : list bool :=
  let j : nat := order !!! _j in
  if (suppressed !!! j : bool) then suppressed
  else if gt (ovr (boxes !!! i) (boxes !!! j)) iou_threshold
       then <[j := true]> suppressed
       else suppressed.

Definition nms_outer (boxes : list Row) (iou_threshold : spec_float)
    (order : list nat) (ndets : nat) (st : list bool * list nat) (_i : nat)
    : list bool * list nat :=
  let i : nat := order !!! _i in
  if (st.1 !!! i : bool) then st
  else (foldl (nms_inner boxes iou_threshold order i) st.1
          (seq (S _i) (ndets - S _i)),
        st.2 ++ [i]).

Definition nms (boxes : list Row) (scores : list spec_float)
    (iou_threshold : spec_float) : list nat :=
  match boxes with
  | [] => []
  | _ =>
      let order := argsort_desc scores in
      let ndets := length boxes in
      (foldl (nms_outer boxes iou_threshold order ndets)
         (replicate ndets false, []) (seq 0 ndets)).2
  end.

(** [apply_nms] with the two [torch.tensor] conversions. *)
Definition apply_nms (detections : list Detection) (iou_threshold : Q)
    : option (list Detection) :=
  match detections with
  | [] => Some []
  | _ =>
      let boxes := (fun d => row (box d)) <$> detections in
      let scores := (fun d => of_Q (score d)) <$> detections in
      let keep := nms boxes scores (double iou_threshold) in
      mapM (fun i => detections !! i) keep
  end.

(** The kernel's test on the boxes of two detections, and the order of
    their scores in the [scores] tensor. *)
Definition suppresses (iou_threshold : Q) (a b : Box) : bool :=
  gt (ovr (row a) (row b)) (double iou_threshold).

Definition score_lt (d d' : Detection) : bool :=
  SFltb (of_Q (score d)) (of_Q (score d')).

(** The IoU the kernel computes for two boxes is the threshold. *)
Definition iou_is (iou_threshold : Q) (a b : Box) : bool :=
  SFeqb (double iou_threshold) (Binary32.widen (ovr (row a) (row b))).

(** The greedy algorithm on the float32 values: take the detections in
    descending order of float32 score, ties in input order; keep the
    first, discard those whose float32 IoU with it is greater than the
    threshold; go on with the rest. *)
Definition strict_nms (detections : list Detection) (iou_threshold : Q)
    : list Detection :=
  greedy_select (fun d d' => suppresses iou_threshold (box d) (box d'))
    (length detections) (sort_by score_lt detections).

(** [detect] with this [apply_nms]. *)
Definition detect {Contents Image : Type} (decode : Contents -> option Image)
    (to_bgr : Image -> Image) (model : Image -> Z -> option (list Results))
    (names : Z -> string) (contents : Contents) : response * list Z :=
  match decode contents with
  | None => (JsonObject [("error", "Invalid image")]%string, [])
  | Some image =>
      let image_bgr := to_bgr image in
      let st := accumulate model names image_bgr in
      match st.1 with
      | None => (Propagated, st.2)
      | Some detections =>
          match apply_nms detections IOU_THRESHOLD with
          | Some final_detections => (JsonDetections final_detections, st.2)
          | None => (Propagated, st.2)
          end
      end
  end.

End F32.

(** ** Concrete inputs *)

(** Two boxes whose IoU is exactly 1/2: intersection 1, union 2. *)
Definition wide : Detection := mkDetection "stop" (3 # 4) (mkBox 0 0 2 1).
Definition narrow : Detection := mkDetection "stop" (1 # 2) (mkBox 0 0 1 1).

(** The class-agnostic example: IoU 90/100. *)
Definition cat : Detection := mkDetection "cat" (9 # 10) (mkBox 0 0 10 10).
Definition dog : Detection := mkDetection "dog" (85 # 100) (mkBox 0 0 10 9).

(** The IoU example: intersection 25, union 175. *)
Definition boxA : Box := mkBox 0 0 10 10.
Definition boxB : Box := mkBox 5 5 15 15.

(** A zero-width box. *)
Definition sliver : Detection := mkDetection "yield" (1 # 2) (mkBox 3 0 3 8).

(** A handler environment to run [detect] in: the empty upload does not
    decode; the detector reports one box per call, with confidence
    0.3 at 640, 0.4 at 960 and 0.9 at 1280. *)
Definition sample_decode (contents : string) : option string :=
  if String.eqb contents "" then None else Some contents.

Definition sample_model (image : string) (sz : Z) : option (list Results) :=
  let c := if (sz =? 640)%Z then 3 # 10 else if (sz =? 960)%Z then 4 # 10 else 9 # 10 in
  Some [mkResults [mkRawBox c 0 (mkBox 0 0 10 10)]].

Definition sample_names (class_id : Z) : string := "stop".

(** ** Boxes that do not overlap *)

(** One box ends where the other begins, or before, along some axis. *)
Definition apart (a b : Box) : Prop :=
  (xmax a <= xmin b)%Q \/ (xmax b <= xmin a)%Q
  \/ (ymax a <= ymin b)%Q \/ (ymax b <= ymin a)%Q.

(** Two more detectors for [detect]: one that raises at size 960, and
    one whose raw boxes all have confidence 0.3. *)
Definition flaky_model (image : string) (sz : Z) : option (list Results) :=
  if (sz =? 960)%Z then None else sample_model image sz.

Definition quiet_model (image : string) (sz : Z) : option (list Results) :=
  Some [mkResults [mkRawBox (3 # 10) 0 (mkBox 0 0 10 10)]; mkResults []].

(** Two detections on one box whose scores, 1/2 and 1/2 + 2^-30, are
    different Python floats and the same float32. *)
Definition level : Detection := mkDetection "stop" (1 # 2) boxA.
Definition above : Detection :=
  mkDetection "yield" (536870913 # 1073741824) boxA.

(** Boxes on the float32 grid for which rounding decides the test at
    threshold 1/2: the exact IoU of the first pair is 1/2 and the
    float32 one is above it; for the second pair it is the other way
    round. *)
Definition grid_a : Box := mkBox 0 0 (36375 # 100) (480625 # 1000).
Definition grid_b : Box := mkBox 0 0 (181875 # 1000) (480625 # 1000).
Definition grid_c : Box := mkBox 0 0 (3460287 # 32768) (4536779 # 65536).
Definition grid_d : Box := mkBox 0 0 (13841149 # 262144) (4536779 # 65536).

(** A detector that reports two raw boxes at size 640 and nothing at
    the other sizes. *)
Definition twin_model (image : string) (sz : Z) : option (list Results) :=
  if (sz =? 640)%Z
  then Some [mkResults [mkRawBox (9 # 10) 0 boxA; mkRawBox (8 # 10) 1 boxB]]
  else Some [mkResults []].

(** ** Loops over index ranges *)

(** A loop that reads [l] at the positions [s .. s+n) is a fold over
    that slice of [l]. *)
Lemma foldl_seq_lookup {S : Type} (f : S -> nat -> S) (l : list nat) :
  forall (n s : nat) (a : S),
    s + n <= length l ->
    foldl (fun acc k => f acc (l !!! k)) a (seq s n)
    = foldl f a (take n (drop s l)).
Proof.
  induction n as [|n IH]; intros s a Hlen; [by rewrite take_0|].
  destruct (lookup_lt_is_Some_2 l s) as [x Hx]; [lia|].
  rewrite (drop_S _ _ _ Hx). cbn [seq foldl take].
  rewrite (list_lookup_total_correct _ _ _ Hx).
  apply IH. lia.
Qed.

Lemma scan_inner_mark test order i sup _i :
  foldl (scan_inner test order i) sup (seq (S _i) (length order - S _i))
  = foldl (mark test i) sup (drop (S _i) order).
Proof.
  change (scan_inner test order i)
    with (fun acc k => mark test i acc (order !!! k)).
  destruct (decide (S _i <= length order)) as [Hle|Hgt].
  - rewrite foldl_seq_lookup by lia.
    by rewrite take_ge by (rewrite length_drop; lia).
  - replace (length order - S _i) with 0 by lia.
    by rewrite drop_ge by lia.
Qed.

Lemma scan_outer_sweep test order :
  forall (m k : nat) (st : list bool * list nat),
    k + m = length order ->
    foldl (scan_outer test order (length order)) st (seq k m)
    = sweep test st.1 st.2 (drop k order).
Proof.
  induction m as [|m IH]; intros k st Hk.
  - rewrite drop_ge by lia. by destruct st.
  - destruct (lookup_lt_is_Some_2 order k) as [i Hi]; [lia|].
    rewrite (drop_S _ _ _ Hi). cbn [seq foldl sweep].
    rewrite IH by lia. unfold scan_outer.
    rewrite (list_lookup_total_correct _ _ _ Hi).
    destruct (st.1 !!! i : bool) eqn:Hs; [done|].
    cbn [fst snd]. by rewrite scan_inner_mark.
Qed.

(** ** The suppressed array *)

Lemma mark_length test i sup j : length (mark test i sup j) = length sup.
Proof.
  unfold mark. repeat case_match; try done. by rewrite length_insert.
Qed.

Lemma foldl_mark_length test i rest :
  forall sup, length (foldl (mark test i) sup rest) = length sup.
Proof.
  induction rest as [|j rest IH]; intros sup; [done|].
  cbn [foldl]. by rewrite IH, mark_length.
Qed.

Lemma mark_lookup test i sup j k :
  j < length sup ->
  mark test i sup j !!! k = (sup !!! k) || (bool_decide (k = j) && test i j).
Proof.
  intros Hj. unfold mark.
  destruct (sup !!! j : bool) eqn:Hs.
  - case_bool_decide; subst; [by rewrite Hs | by rewrite orb_false_r].
  - destruct (test i j) eqn:Hk.
    + destruct (decide (k = j)) as [->|Hne].
      * rewrite list_lookup_total_insert_eq by done.
        by rewrite bool_decide_eq_true_2, orb_true_r.
      * rewrite list_lookup_total_insert_ne by done.
        by rewrite bool_decide_eq_false_2, orb_false_r.
    + by rewrite andb_false_r, orb_false_r.
Qed.

(** After the inner loop for [i], an index of [rest] is marked exactly
    when it was marked before or box [i] suppresses it. *)
Lemma foldl_mark_lookup test i rest :
  forall sup k,
    Forall (fun j => j < length sup) rest ->
    k ∈ rest ->
    foldl (mark test i) sup rest !!! k = (sup !!! k) || test i k.
Proof.
  induction rest as [|j rest IH]; intros sup k Hb Hk; [by apply elem_of_nil in Hk|].
  apply Forall_cons in Hb as [Hj Hb]. cbn [foldl].
  destruct (decide (k ∈ rest)) as [Hin|Hout].
  - rewrite IH; [|by rewrite mark_length|done].
    rewrite mark_lookup by done.
    case_bool_decide; subst; cbn; [|by rewrite orb_false_r].
    by destruct (sup !!! j), (test i j).
  - apply elem_of_cons in Hk as [->|Hk]; [|done].
    assert (Hstay : forall rest' sup', j ∉ rest' ->
              Forall (fun j' => j' < length sup') rest' ->
              foldl (mark test i) sup' rest' !!! j = sup' !!! j).
    { clear. induction rest' as [|j' rest' IH']; intros sup' Hn Hb'; [done|].
      apply not_elem_of_cons in Hn as [Hne Hn].
      apply Forall_cons in Hb' as [Hj' Hb']. cbn [foldl].
      rewrite IH'; [|done|by rewrite mark_length].
      rewrite mark_lookup by done.
      rewrite bool_decide_eq_false_2 by done. by rewrite orb_false_r. }
    rewrite Hstay; [|done|by rewrite mark_length].
    rewrite mark_lookup by done.
    by rewrite bool_decide_eq_true_2.
Qed.

Lemma filter_ext_elem {A} (P1 P2 : A -> Prop)
    `{!forall x, Decision (P1 x), !forall x, Decision (P2 x)} (l : list A) :
  (forall x, x ∈ l -> P1 x <-> P2 x) -> filter P1 l = filter P2 l.
Proof.
  induction l as [|x l IH]; intros Hext; [done|].
  assert (Hx : P1 x <-> P2 x) by (apply Hext; left).
  assert (Hl : filter P1 l = filter P2 l) by (apply IH; intros; apply Hext; by right).
  destruct (decide (P1 x)).
  - rewrite !filter_cons_True by tauto. by f_equal.
  - rewrite !filter_cons_False by tauto. done.
Qed.

Lemma filter_all_elem {A} (P : A -> Prop) `{!forall x, Decision (P x)} (l : list A) :
  (forall x, x ∈ l -> P x) -> filter P l = l.
Proof.
  induction l as [|x l IH]; intros Hall; [done|].
  rewrite filter_cons_True by (apply Hall; left).
  f_equal. apply IH. intros; apply Hall; by right.
Qed.

(** ** Fuel *)

Lemma greedy_select_length {A} (sup : A -> A -> bool) :
  forall fuel l, length (greedy_select sup fuel l) <= length l.
Proof.
  induction fuel as [|fuel IH]; intros [|d rest]; cbn; try lia.
  specialize (IH (filter (fun d' => sup d d' = false) rest)).
  pose proof (length_filter (fun d' => sup d d' = false) rest). lia.
Qed.

Lemma greedy_select_fuel {A} (sup : A -> A -> bool) :
  forall fuel fuel' l,
    length l <= fuel -> length l <= fuel' ->
    greedy_select sup fuel l = greedy_select sup fuel' l.
Proof.
  induction fuel as [|fuel IH]; intros fuel' [|d rest] H1 H2; cbn in *;
    try lia; destruct fuel'; cbn; try done; try lia.
  f_equal. pose proof (length_filter (fun d' => sup d d' = false) rest).
  apply IH; lia.
Qed.

(** ** The sweep is the greedy selection *)

(** Visiting [todo] with the array [sup] keeps what the greedy
    selection keeps of the entries of [todo] not yet marked. *)
Lemma sweep_greedy test :
  forall todo sup keep,
    Forall (fun j => j < length sup) todo ->
    (sweep test sup keep todo).2
    = keep ++ greedy_select test (length todo)
                (filter (fun j => sup !!! j = false) todo).
Proof.
  induction todo as [|i rest IH]; intros sup keep Hb; [by rewrite app_nil_r|].
  apply Forall_cons in Hb as [Hi Hb]. cbn [sweep].
  destruct (sup !!! i : bool) eqn:Hs.
  - rewrite IH by done. rewrite filter_cons_False by congruence.
    f_equal. pose proof (length_filter (fun j => sup !!! j = false) rest).
    apply greedy_select_fuel; cbn [length]; lia.
  - rewrite IH by (by rewrite foldl_mark_length).
    rewrite filter_cons_True by done. cbn [length greedy_select].
    rewrite <- app_assoc. cbn. do 2 f_equal.
    rewrite list_filter_filter. f_equal.
    apply filter_ext_elem. intros k Hk.
    rewrite foldl_mark_lookup by done.
    destruct (sup !!! k), (test i k); cbn; intuition congruence.
Qed.

(** The double loop, started on the array of zeros, returns the greedy
    selection over [order]. *)
Lemma scan_greedy test order :
  Forall (fun j => j < length order) order ->
  (foldl (scan_outer test order (length order))
     (replicate (length order) false, []) (seq 0 (length order))).2
  = greedy_select test (length order) order.
Proof.
  intros Hob. rewrite scan_outer_sweep by lia. cbn [fst snd drop].
  rewrite sweep_greedy by (by rewrite length_replicate).
  cbn [app]. f_equal.
  apply filter_all_elem. intros j Hj.
  rewrite Forall_forall in Hob. specialize (Hob j Hj).
  by rewrite lookup_total_replicate_2 by lia.
Qed.

(** ** Sorting *)

Lemma insert_desc_perm {A} (key : A -> Q) x l : insert_desc key x l ≡ₚ x :: l.
Proof.
  induction l as [|y l IH]; cbn; [done|].
  destruct (Qltb _ _); [|done]. rewrite IH. apply Permutation_swap.
Qed.

Lemma sort_desc_perm {A} (key : A -> Q) l : sort_desc key l ≡ₚ l.
Proof.
  induction l as [|x l IH]; cbn; [done|].
  fold (sort_desc key l). by rewrite insert_desc_perm, IH.
Qed.

Lemma sort_desc_length {A} (key : A -> Q) l : length (sort_desc key l) = length l.
Proof. by rewrite sort_desc_perm. Qed.

Section Related.
Context {A B : Type} (R : A -> B -> Prop).

Lemma insert_desc_Forall2 (keyA : A -> Q) (keyB : B -> Q) x y l k :
  (forall a b, R a b -> keyA a = keyB b) ->
  R x y -> Forall2 R l k ->
  Forall2 R (insert_desc keyA x l) (insert_desc keyB y k).
Proof.
  intros Hkey Hxy Hlk. induction Hlk as [|a b l k Hab Hlk IH]; cbn.
  - by repeat constructor.
  - rewrite (Hkey _ _ Hxy), (Hkey _ _ Hab).
    destruct (Qltb _ _); by repeat constructor.
Qed.

Lemma sort_desc_Forall2 (keyA : A -> Q) (keyB : B -> Q) l k :
  (forall a b, R a b -> keyA a = keyB b) ->
  Forall2 R l k -> Forall2 R (sort_desc keyA l) (sort_desc keyB k).
Proof.
  intros Hkey Hlk. induction Hlk; cbn; [constructor|].
  by apply insert_desc_Forall2.
Qed.

Lemma greedy_select_Forall2 (supA : A -> A -> bool) (supB : B -> B -> bool) :
  (forall a b a' b', R a b -> R a' b' -> supA a a' = supB b b') ->
  forall fuel l k,
    Forall2 R l k ->
    Forall2 R (greedy_select supA fuel l) (greedy_select supB fuel k).
Proof.
  intros Hsup. induction fuel as [|fuel IH]; intros l k Hlk;
    destruct Hlk as [|a b l k Hab Hlk]; cbn; try constructor; [done|].
  apply IH. eapply Forall2_filter; [|done].
  intros a' b' Hab'. by rewrite (Hsup _ _ _ _ Hab Hab').
Qed.
End Related.

(** ** [nms] returns the greedy selection over [order] *)

Lemma argsort_desc_perm scores :
  argsort_desc scores ≡ₚ seq 0 (length scores).
Proof.
  unfold argsort_desc. rewrite sort_desc_perm.
  by rewrite fst_zip by (by rewrite length_seq).
Qed.

Lemma argsort_desc_length scores :
  length (argsort_desc scores) = length scores.
Proof. by rewrite argsort_desc_perm, length_seq. Qed.

Lemma argsort_desc_bound scores :
  Forall (fun j => j < length scores) (argsort_desc scores).
Proof.
  rewrite argsort_desc_perm. apply Forall_forall.
  intros j Hj%elem_of_seq. lia.
Qed.

(** The indices [nms] returns. *)
Lemma nms_greedy bxs scores thr :
  length scores = length bxs ->
  nms bxs scores thr
  = greedy_select (fun i j => kernel_suppresses thr (bxs !!! i) (bxs !!! j))
      (length bxs) (argsort_desc scores).
Proof.
  intros Hlen. unfold nms. destruct bxs as [|b bxs']; [done|].
  set (bxs := b :: bxs') in *.
  pose proof (argsort_desc_length scores) as Hol.
  pose proof (argsort_desc_bound scores) as Hob.
  rewrite <- Hlen, <- Hol. rewrite <- Hol in Hob.
  change (nms_outer bxs thr (argsort_desc scores))
    with (scan_outer (fun i j => kernel_suppresses thr (bxs !!! i) (bxs !!! j))
            (argsort_desc scores)).
  by apply scan_greedy.
Qed.

(** ** [apply_nms] returns the greedy selection over the sorted detections *)

Lemma zip_seq_related (ds : list Detection) :
  forall s (pre : list Detection),
    length pre = s ->
    Forall2 (fun (p : nat * Q) d => (pre ++ ds) !! p.1 = Some d /\ p.2 = score d)
      (zip (seq s (length ds)) (score <$> ds)) ds.
Proof.
  induction ds as [|d ds IH]; intros s pre Hs; cbn; constructor.
  - cbn. split; [|done]. by rewrite list_lookup_middle.
  - specialize (IH (S s) (pre ++ [d])). rewrite <- app_assoc in IH.
    apply IH. rewrite length_app. cbn. lia.
Qed.

Lemma argsort_desc_related (ds : list Detection) :
  Forall2 (fun i d => ds !! i = Some d)
    (argsort_desc (score <$> ds)) (sort_desc score ds).
Proof.
  unfold argsort_desc. rewrite length_fmap. apply Forall2_fmap_l.
  eapply Forall2_impl.
  - apply (sort_desc_Forall2
             (fun (p : nat * Q) d => ds !! p.1 = Some d /\ p.2 = score d)).
    + by intros p d [_ ?].
    + apply (zip_seq_related ds 0 []). done.
  - cbn. by intros p d [? _].
Qed.

(** The suppressor never raises, and what it returns is the greedy
    selection, with the kernel's test, over the detections sorted by
    score. *)
Theorem apply_nms_greedy (ds : list Detection) (thr : Q) :
  apply_nms ds thr
  = Some (greedy_select (fun d d' => kernel_suppresses thr (box d) (box d'))
            (length ds) (sort_desc score ds)).
Proof.
  unfold apply_nms. destruct ds as [|d0 ds']; [done|].
  set (ds := d0 :: ds') in *.
  apply mapM_Some.
  rewrite nms_greedy by (by rewrite !length_fmap).
  rewrite length_fmap.
  apply (greedy_select_Forall2 (fun i d => ds !! i = Some d)).
  - intros i d j d' Hi Hj.
    rewrite (list_lookup_total_correct (box <$> ds) i (box d))
      by (by rewrite list_lookup_fmap, Hi).
    by rewrite (list_lookup_total_correct (box <$> ds) j (box d'))
      by (by rewrite list_lookup_fmap, Hj).
  - apply argsort_desc_related.
Qed.

Lemma apply_nms_total (ds : list Detection) (thr : Q) : is_Some (apply_nms ds thr).
Proof. rewrite apply_nms_greedy. by eexists. Qed.

(** ** Areas *)

Lemma Qltb_lt a b : Qltb a b = true <-> (a < b)%Q.
Proof.
  unfold Qltb. rewrite negb_true_iff, <- not_true_iff_false, Qle_bool_iff.
  split; [apply Qnot_le_lt | apply Qlt_not_le].
Qed.

Lemma Qltb_ge a b : Qltb a b = false <-> (b <= a)%Q.
Proof. unfold Qltb. by rewrite negb_false_iff, Qle_bool_iff. Qed.

Lemma Qltb_proper a a' b b' : a == a' -> b == b' -> Qltb a b = Qltb a' b'.
Proof. intros Ha Hb. unfold Qltb. by rewrite Ha, Hb. Qed.

Lemma inter_nonneg a b : (0 <= inter a b)%Q.
Proof.
  unfold inter. cbv zeta. apply Qmult_le_0_compat; apply Q.le_max_l.
Qed.

Lemma area_nonneg a : wf_box a -> (0 <= area a)%Q.
Proof. intros [Hx Hy]. unfold area. nra. Qed.

Lemma clip_le (lo1 lo2 hi1 hi2 : Q) :
  (lo1 <= hi1)%Q ->
  (Qmax 0 (Qmin hi1 hi2 - Qmax lo1 lo2) <= hi1 - lo1)%Q.
Proof.
  intros H. apply Q.max_lub; [lra|].
  pose proof (Q.le_min_l hi1 hi2). pose proof (Q.le_max_l lo1 lo2). lra.
Qed.

Lemma clip_comm (lo1 lo2 hi1 hi2 : Q) :
  Qmax 0 (Qmin hi1 hi2 - Qmax lo1 lo2) == Qmax 0 (Qmin hi2 hi1 - Qmax lo2 lo1).
Proof. by rewrite (Q.min_comm hi1 hi2), (Q.max_comm lo1 lo2). Qed.

Lemma inter_comm a b : inter a b == inter b a.
Proof.
  unfold inter. cbv zeta.
  by rewrite (clip_comm (xmin a)), (clip_comm (ymin a)).
Qed.

Lemma union_area_comm a b : union_area a b == union_area b a.
Proof. unfold union_area. rewrite (inter_comm a b). ring. Qed.

Lemma inter_le_area_l a b : wf_box a -> (inter a b <= area a)%Q.
Proof.
  intros [Hx Hy]. unfold inter, area. cbv zeta.
  pose proof (clip_le (xmin a) (xmin b) (xmax a) (xmax b) Hx).
  pose proof (clip_le (ymin a) (ymin b) (ymax a) (ymax b) Hy).
  pose proof (Q.le_max_l 0 (Qmin (xmax a) (xmax b) - Qmax (xmin a) (xmin b))).
  pose proof (Q.le_max_l 0 (Qmin (ymax a) (ymax b) - Qmax (ymin a) (ymin b))).
  nra.
Qed.

Lemma inter_le_area_r a b : wf_box b -> (inter a b <= area b)%Q.
Proof. intros Hb. rewrite inter_comm. by apply inter_le_area_l. Qed.

Lemma union_zero_inter_zero a b :
  wf_box a -> wf_box b -> union_area a b == 0 -> inter a b == 0.
Proof.
  intros Ha Hb. unfold union_area.
  pose proof (inter_nonneg a b). pose proof (inter_le_area_l a b Ha).
  pose proof (inter_le_area_r a b Hb). lra.
Qed.

Lemma degenerate_inter_zero a b :
  wf_box a -> area a == 0 -> inter a b == 0.
Proof.
  intros Ha Hz. pose proof (inter_nonneg a b).
  pose proof (inter_le_area_l a b Ha). lra.
Qed.

(** ** The kernel's test against the specification's IoU *)

Lemma fgt_fdiv_proper a a' b b' t :
  a == a' -> b == b' -> fgt (fdiv a b) t = fgt (fdiv a' b') t.
Proof.
  intros Ha Hb. unfold fdiv.
  rewrite <- (Qeqb_comp _ _ Hb 0%Q 0%Q), <- (Qeqb_comp _ _ Ha 0%Q 0%Q) by reflexivity.
  destruct (Qeq_bool b 0) eqn:Hb0; [destruct (Qeq_bool a 0); cbn; [done|]|cbn].
  - f_equal. apply Qltb_proper; [done|reflexivity].
  - apply Qltb_proper; [reflexivity|]. by rewrite Ha, Hb.
Qed.

Lemma kernel_suppresses_comm thr a b :
  kernel_suppresses thr a b = kernel_suppresses thr b a.
Proof.
  unfold kernel_suppresses, ovr.
  apply fgt_fdiv_proper; [apply inter_comm | apply union_area_comm].
Qed.

(** On well-formed boxes and for a threshold that is not negative the
    kernel's test is [spec_iou > threshold]. *)
Lemma kernel_suppresses_spec_iou thr a b :
  wf_box a -> wf_box b -> (0 <= thr)%Q ->
  kernel_suppresses thr a b = Qltb thr (spec_iou a b).
Proof.
  intros Ha Hb Ht. unfold kernel_suppresses, ovr, fdiv, spec_iou.
  destruct (Qeq_bool (union_area a b) 0) eqn:Hu; [|done].
  apply Qeq_bool_iff in Hu.
  rewrite (Qeq_eq_bool _ _ (union_zero_inter_zero a b Ha Hb Hu)). cbn.
  symmetry. by apply Qltb_ge.
Qed.

Lemma degenerate_never_suppresses thr a b :
  wf_box a -> wf_box b -> (0 <= thr)%Q -> area a == 0 ->
  kernel_suppresses thr a b = false.
Proof.
  intros Ha Hb Ht Hz. rewrite kernel_suppresses_spec_iou by done.
  apply Qltb_ge. unfold spec_iou.
  destruct (Qeq_bool _ _); [done|].
  assert (inter a b / union_area a b == 0) as ->; [|done].
  rewrite (degenerate_inter_zero a b Ha Hz). unfold Qdiv. ring.
Qed.

(** ** Agreement with binary32 on the concrete boxes *)

(** The IoU of the boundary pair is exactly one half in binary32 as
    well, that of [boxA] and [boxB] is 25/175 rounded, 0/0 is NaN, and
    on the boxes used in this file the kernel's test has the same
    outcome in both arithmetics. *)
Lemma binary32_agrees :
  Binary32.ovr32 (box wide) (box narrow) = Binary32.of_Q (1 # 2)
  /\ Binary32.ovr32 boxA boxB = Binary32.of_Q (25 # 175)
  /\ Binary32.ovr32 (box sliver) (box sliver) = S754_nan
  /\ Forall (fun '(thr, a, b) => Binary32.suppresses32 thr a b = kernel_suppresses thr a b)
       [(1 # 2, box wide, box narrow); (1 # 2, box narrow, box wide);
        (1 # 4, box narrow, box wide); (1 # 2, box cat, box dog);
        (1 # 2, box dog, box cat); (1 # 2, boxA, boxB); (1 # 2, boxB, boxA);
        (1 # 10, boxA, boxB); (1 # 10, boxB, boxA);
        (1 # 2, box sliver, box sliver); (1 # 2, box sliver, box wide);
        (1 # 2, box wide, box sliver)].
Proof.
  split; [by vm_compute|]. split; [by vm_compute|]. split; [by vm_compute|].
  repeat constructor; by vm_compute.
Qed.

(** ** Order of the result *)

Lemma insert_desc_sorted {A} (key : A -> Q) x l :
  StronglySorted (desc key) l -> StronglySorted (desc key) (insert_desc key x l).
Proof.
  induction 1 as [|y l Hl IH Hy]; cbn; [by repeat constructor|].
  destruct (Qltb (key x) (key y)) eqn:Hc.
  - apply Qltb_lt in Hc. constructor; [done|].
    rewrite insert_desc_perm. constructor; [|done].
    unfold desc. lra.
  - apply Qltb_ge in Hc. constructor; [by constructor|].
    constructor; [done|].
    eapply Forall_impl; [exact Hy|]. unfold desc. intros z Hz. lra.
Qed.

Lemma sort_desc_sorted {A} (key : A -> Q) l :
  StronglySorted (desc key) (sort_desc key l).
Proof.
  induction l as [|x l IH]; cbn; [constructor|]. by apply insert_desc_sorted.
Qed.

Lemma sorted_sublist {A} (R : A -> A -> Prop) l k :
  sublist l k -> StronglySorted R k -> StronglySorted R l.
Proof.
  induction 1 as [|x l k Hlk IH|x l k Hlk IH]; intros Hk; [done| |].
  - apply StronglySorted_inv in Hk as [Hk Hx].
    constructor; [by apply IH|].
    apply Forall_forall. intros y Hy. rewrite Forall_forall in Hx.
    apply Hx. by eapply elem_of_sublist.
  - apply StronglySorted_inv in Hk as [Hk _]. by apply IH.
Qed.

Lemma greedy_select_sublist {A} (sup : A -> A -> bool) :
  forall fuel l, sublist (greedy_select sup fuel l) l.
Proof.
  induction fuel as [|fuel IH]; intros [|d rest]; cbn;
    try apply sublist_nil_l.
  apply sublist_skip. etrans; [apply IH | apply sublist_filter].
Qed.

Lemma greedy_select_keeps {A} (sup : A -> A -> bool) x :
  forall fuel l,
    length l <= fuel ->
    x ∈ l ->
    (forall y, y ∈ l -> sup y x = false) ->
    x ∈ greedy_select sup fuel l.
Proof.
  induction fuel as [|fuel IH]; intros [|d rest] Hf Hx Hfree; cbn in *;
    try (by apply elem_of_nil in Hx); try lia.
  apply elem_of_cons in Hx as [->|Hx]; [left|right].
  pose proof (length_filter (fun d' => sup d d' = false) rest).
  apply IH; [lia| |].
  - apply list_elem_of_filter. split; [|done]. apply Hfree. left.
  - intros y [_ Hy]%list_elem_of_filter. apply Hfree. by right.
Qed.

(** ** Properties of the suppressor *)

(** C9: the suppressor called with an empty detection list returns an
    empty list. *)
Theorem apply_nms_empty (thr : Q) : apply_nms [] thr = Some [].
Proof. reflexivity. Qed.

(** C5: every detection in the output of the suppressor is an element
    of the input list, as it was (the output is the input with entries
    left out, up to order), so the output is no longer than the
    input. *)
Theorem apply_nms_filters_only (ds : list Detection) (thr : Q) :
  exists out,
    apply_nms ds thr = Some out
    /\ out ⊆+ ds
    /\ (forall d, d ∈ out -> d ∈ ds)
    /\ length out <= length ds.
Proof.
  eexists. split; [apply apply_nms_greedy|].
  assert (Hsub : greedy_select
                   (fun d d' => kernel_suppresses thr (box d) (box d'))
                   (length ds) (sort_desc score ds) ⊆+ ds).
  { rewrite <- (sort_desc_perm score ds) at 3.
    apply sublist_submseteq, greedy_select_sublist. }
  split; [done|]. split.
  - intros d Hd. by eapply elem_of_submseteq.
  - by apply submseteq_length.
Qed.

(** ** Labels are not looked at *)

Lemma Forall2_graph_fmap {A B} (f : A -> B) l k :
  Forall2 (fun a b => b = f a) l k -> k = f <$> l.
Proof. induction 1; cbn; congruence. Qed.

Lemma apply_nms_relabel (g : string -> string) (ds : list Detection) (thr : Q) :
  apply_nms (relabel g <$> ds) thr = (fun out : list Detection => relabel g <$> out) <$> apply_nms ds thr.
Proof.
  rewrite !apply_nms_greedy, length_fmap. cbn. f_equal.
  apply Forall2_graph_fmap.
  apply (greedy_select_Forall2 (fun a b => b = relabel g a)).
  - by intros a b a' b' -> ->.
  - apply (sort_desc_Forall2 (fun a b => b = relabel g a)).
    + by intros a b ->.
    + apply Forall2_fmap_r, Forall_Forall2_diag, Forall_true. done.
Qed.

(** C6: suppression is class-agnostic.  A "cat" detection (score 0.9)
    and a "dog" detection (score 0.85) whose boxes have IoU 0.9 are
    reduced, at threshold 0.5, to the "cat" detection alone, whichever
    comes first in the input; and in general rewriting the labels of
    the input changes nothing but the labels of the output. *)
Theorem apply_nms_class_agnostic :
  feq (ovr (box cat) (box dog)) (9 # 10) = true
  /\ apply_nms [cat; dog] (1 # 2) = Some [cat]
  /\ apply_nms [dog; cat] (1 # 2) = Some [cat]
  /\ forall (g : string -> string) (ds : list Detection) (thr : Q),
       apply_nms (relabel g <$> ds) thr = (fun out : list Detection => relabel g <$> out) <$> apply_nms ds thr.
Proof.
  split; [by vm_compute|]. split; [by vm_compute|]. split; [by vm_compute|].
  apply apply_nms_relabel.
Qed.

(** ** Degenerate boxes *)

(** C8: zero-area boxes do no harm.  The suppressor returns a result on
    every input; for well-formed boxes and a threshold that is not
    negative, a pair whose union area is 0 has the quotient 0/0, which
    is not a number and compares like an IoU of 0, so that neither box
    suppresses the other; a zero-area box neither suppresses nor is
    suppressed by any box; and a zero-area detection of the input is
    always in the output. *)
Theorem apply_nms_degenerate_safe :
  (forall ds thr, is_Some (apply_nms ds thr))
  /\ (forall a b thr,
        wf_box a -> wf_box b -> (0 <= thr)%Q -> union_area a b == 0 ->
        ovr a b = NaN
        /\ fgt (ovr a b) thr = fgt (Finite 0) thr
        /\ kernel_suppresses thr a b = false
        /\ kernel_suppresses thr b a = false)
  /\ (forall a b thr,
        wf_box a -> wf_box b -> (0 <= thr)%Q -> area a == 0 ->
        kernel_suppresses thr a b = false /\ kernel_suppresses thr b a = false)
  /\ (forall ds thr d,
        Forall (fun d' => wf_box (box d')) ds -> (0 <= thr)%Q ->
        d ∈ ds -> area (box d) == 0 ->
        exists out, apply_nms ds thr = Some out /\ d ∈ out).
Proof.
  split; [|split; [|split]].
  - apply apply_nms_total.
  - intros a b thr Ha Hb Ht Hu.
    assert (Hnan : ovr a b = NaN).
    { unfold ovr, fdiv.
      by rewrite (Qeq_eq_bool _ _ Hu),
        (Qeq_eq_bool _ _ (union_zero_inter_zero a b Ha Hb Hu)). }
    assert (Hk : kernel_suppresses thr a b = false)
      by (unfold kernel_suppresses; by rewrite Hnan).
    split; [done|]. split.
    + rewrite Hnan. cbn. symmetry. by apply Qltb_ge.
    + split; [done|]. by rewrite kernel_suppresses_comm.
  - intros a b thr Ha Hb Ht Hz.
    pose proof (degenerate_never_suppresses thr a b Ha Hb Ht Hz) as Hk.
    split; [done|]. by rewrite kernel_suppresses_comm.
  - intros ds thr d Hwf Ht Hd Hz. rewrite apply_nms_greedy.
    eexists. split; [done|].
    rewrite Forall_forall in Hwf.
    apply greedy_select_keeps.
    + by rewrite sort_desc_length.
    + by rewrite sort_desc_perm.
    + intros y Hy. rewrite sort_desc_perm in Hy.
      rewrite kernel_suppresses_comm.
      apply degenerate_never_suppresses; auto.
Qed.

Lemma apply_nms_degenerate_safe_witness :
  (ovr (box sliver) (box sliver) = NaN
   /\ fgt (ovr (box sliver) (box sliver)) (1 # 2) = fgt (Finite 0) (1 # 2)
   /\ kernel_suppresses (1 # 2) (box sliver) (box sliver) = false
   /\ kernel_suppresses (1 # 2) (box sliver) (box sliver) = false)
  /\ (kernel_suppresses (1 # 2) (box sliver) (box wide) = false
      /\ kernel_suppresses (1 # 2) (box wide) (box sliver) = false)
  /\ exists out, apply_nms [wide; sliver; sliver] (1 # 2) = Some out /\ sliver ∈ out.
Proof.
  destruct apply_nms_degenerate_safe as (_ & Hunion & Harea & Hkept).
  split; [|split].
  - apply (Hunion (box sliver) (box sliver) (1 # 2)); by vm_compute.
  - apply (Harea (box sliver) (box wide) (1 # 2)); by vm_compute.
  - apply (Hkept [wide; sliver; sliver] (1 # 2) sliver).
    + repeat constructor; by vm_compute.
    + by vm_compute.
    + right; left.
    + by vm_compute.
Defined.

(** ** Properties of the handler *)

Section HandlerProperties.

Context {Contents Image : Type}.
Context (decode : Contents -> option Image) (to_bgr : Image -> Image).
Context (model : Image -> Z -> option (list Results)) (names : Z -> string).

Lemma foldl_visit_box (bs : list RawBox) :
  forall acc, foldl (visit_box names) acc bs = acc ++ (emit names <$> confident bs).
Proof.
  induction bs as [|b bs IH]; intros acc; cbn [foldl].
  - by rewrite app_nil_r.
  - rewrite IH. unfold visit_box, confident.
    destruct (Qle_bool CONFIDENCE_THRESHOLD (conf b)) eqn:Hc.
    + rewrite filter_cons_True by done. by rewrite <- app_assoc.
    + by rewrite filter_cons_False by congruence.
Qed.

Lemma visit_results_flat (results : list Results) :
  forall acc,
    visit_results names acc results
    = acc ++ (emit names <$> confident (results ≫= boxes)).
Proof.
  unfold visit_results.
  induction results as [|r results IH]; intros acc; cbn [foldl].
  - by rewrite app_nil_r.
  - rewrite IH, foldl_visit_box, <- app_assoc. f_equal.
    unfold confident. cbn. by rewrite filter_app, fmap_app.
Qed.

(** C4: when the uploaded bytes do not decode, the handler returns
    the payload {"error": "Invalid image"} and the detector has not
    been called. *)
Theorem detect_invalid_image (contents : Contents) :
  decode contents = None ->
  detect decode to_bgr model names contents
  = (JsonObject [("error", "Invalid image")]%string, []).
Proof. intros Hdec. unfold detect. by rewrite Hdec. Qed.

End HandlerProperties.

Lemma detect_invalid_image_witness :
  sample_decode "" = None
  /\ detect sample_decode id sample_model sample_names ""%string
     = (JsonObject [("error", "Invalid image")]%string, []).
Proof.
  split; [reflexivity|].
  apply (detect_invalid_image sample_decode id sample_model sample_names ""%string).
  reflexivity.
Defined.

(** ** More on the greedy selection *)

Lemma greedy_select_pairwise {A} (sup : A -> A -> bool) :
  forall fuel l,
    ForallOrdPairs (fun x y => sup x y = false) (greedy_select sup fuel l).
Proof.
  induction fuel as [|fuel IH]; intros [|d rest]; cbn; try constructor; [|done].
  apply Forall_forall. intros y Hy.
  eapply elem_of_sublist in Hy; [|apply greedy_select_sublist].
  by apply list_elem_of_filter in Hy as [? _].
Qed.

Lemma greedy_select_covers {A} (sup : A -> A -> bool) (R : A -> A -> Prop) :
  forall fuel l,
    length l <= fuel ->
    StronglySorted R l ->
    forall x, x ∈ l ->
      x ∈ greedy_select sup fuel l
      \/ exists k, k ∈ greedy_select sup fuel l /\ sup k x = true /\ R k x.
Proof.
  induction fuel as [|fuel IH]; intros [|d rest] Hf Hs x Hx; cbn in *;
    try (by apply elem_of_nil in Hx); try lia.
  apply StronglySorted_inv in Hs as [Hs Hd]. rewrite Forall_forall in Hd.
  apply elem_of_cons in Hx as [->|Hx]; [left; left|].
  destruct (sup d x) eqn:Hdx.
  { right. exists d. split; [left|]. auto. }
  pose proof (length_filter (fun d' => sup d d' = false) rest).
  destruct (IH (filter (fun d' => sup d d' = false) rest)) with (x := x)
    as [Hin|(k & Hk & Hkx & HR)].
  - lia.
  - eapply sorted_sublist; [apply sublist_filter|done].
  - by apply list_elem_of_filter.
  - left. by right.
  - right. exists k. split; [by right|done].
Qed.

Lemma greedy_select_id {A} (sup : A -> A -> bool) :
  forall fuel l,
    length l <= fuel ->
    ForallOrdPairs (fun x y => sup x y = false) l ->
    greedy_select sup fuel l = l.
Proof.
  induction fuel as [|fuel IH]; intros l Hf Hp;
    destruct Hp as [|d rest Hd Hp]; cbn in *; try done; try lia.
  rewrite Forall_forall in Hd.
  rewrite filter_all_elem by done. f_equal. apply IH; [lia|done].
Qed.


Lemma sort_desc_id {A} (key : A -> Q) l :
  StronglySorted (desc key) l -> sort_desc key l = l.
Proof.
  induction 1 as [|x l Hl IH Hx]; [done|].
  cbn. fold (sort_desc key l). rewrite IH.
  destruct l as [|y l']; [done|]. cbn.
  apply Forall_cons in Hx as [Hxy _]. unfold desc in Hxy.
  by rewrite (proj2 (Qltb_ge (key x) (key y))).
Qed.

Lemma pairwise_perm {A} (R : A -> A -> Prop) l l' :
  (forall x y, R x y -> R y x) ->
  l ≡ₚ l' -> ForallOrdPairs R l -> ForallOrdPairs R l'.
Proof.
  intros Hsym. induction 1 as [|x l l' Hp IH|x y l|l1 l2 l3 _ IH1 _ IH2];
    intros Hl; auto.
  - inversion Hl as [|? ? Hx Hl']; subst. constructor; [|by apply IH].
    by rewrite <- Hp.
  - inversion Hl as [|? ? Hy Hl']; subst.
    inversion Hl' as [|? ? Hx Hl'']; subst.
    apply Forall_cons in Hy as [Hyx Hy].
    repeat constructor; auto.
Qed.

Lemma pairwise_sublist {A} (R : A -> A -> Prop) l k :
  sublist l k -> ForallOrdPairs R k -> ForallOrdPairs R l.
Proof.
  induction 1 as [|x l k Hlk IH|x l k Hlk IH]; intros Hk; [done| |].
  - inversion Hk as [|? ? Hx Hk']; subst. constructor; [|by apply IH].
    apply Forall_forall. intros y Hy. rewrite Forall_forall in Hx.
    apply Hx. by eapply elem_of_sublist.
  - inversion Hk; subst. by apply IH.
Qed.

Lemma pairwise_impl {A} (R1 R2 : A -> A -> Prop) l :
  (forall x y, R1 x y -> R2 x y) -> ForallOrdPairs R1 l -> ForallOrdPairs R2 l.
Proof.
  intros Himp. induction 1; constructor; [|done].
  eapply Forall_impl; [done|]. auto.
Qed.

(** ** More on the kernel's test *)




Lemma spec_iou_le_1 a b : wf_box a -> wf_box b -> (spec_iou a b <= 1)%Q.
Proof.
  intros Ha Hb. unfold spec_iou.
  destruct (Qeq_bool (union_area a b) 0) eqn:Hz; [done|].
  apply Qeq_bool_neq in Hz.
  pose proof (inter_nonneg a b). pose proof (inter_le_area_l a b Ha).
  pose proof (inter_le_area_r a b Hb). unfold union_area in *.
  apply Qle_shift_div_r; lra.
Qed.

Lemma no_suppression_at_one thr a b :
  wf_box a -> wf_box b -> (1 <= thr)%Q -> kernel_suppresses thr a b = false.
Proof.
  intros Ha Hb Ht. rewrite kernel_suppresses_spec_iou by (done || lra).
  apply Qltb_ge. pose proof (spec_iou_le_1 a b Ha Hb). lra.
Qed.

Lemma apart_inter_zero a b : apart a b -> inter a b == 0.
Proof.
  intros Hap. unfold inter. cbv zeta.
  set (dx := (Qmin (xmax a) (xmax b) - Qmax (xmin a) (xmin b))%Q).
  set (dy := (Qmin (ymax a) (ymax b) - Qmax (ymin a) (ymin b))%Q).
  assert (Hd : (dx <= 0)%Q \/ (dy <= 0)%Q).
  { subst dx dy.
    pose proof (Q.le_min_l (xmax a) (xmax b)). pose proof (Q.le_min_r (xmax a) (xmax b)).
    pose proof (Q.le_max_l (xmin a) (xmin b)). pose proof (Q.le_max_r (xmin a) (xmin b)).
    pose proof (Q.le_min_l (ymax a) (ymax b)). pose proof (Q.le_min_r (ymax a) (ymax b)).
    pose proof (Q.le_max_l (ymin a) (ymin b)). pose proof (Q.le_max_r (ymin a) (ymin b)).
    destruct Hap as [?|[?|[?|?]]]; [left|left|right|right]; lra. }
  destruct Hd as [Hd|Hd]; rewrite (Q.max_l _ _ Hd); ring.
Qed.

Lemma apart_sym a b : apart a b -> apart b a.
Proof. unfold apart. tauto. Qed.

Lemma apart_not_suppressed thr a b :
  (0 <= thr)%Q -> apart a b -> kernel_suppresses thr a b = false.
Proof.
  intros Ht Hi%apart_inter_zero. unfold kernel_suppresses, ovr.
  rewrite (fgt_fdiv_proper _ 0 _ (union_area a b) thr Hi) by reflexivity.
  unfold fdiv. destruct (Qeq_bool (union_area a b) 0); [done|].
  cbn. apply Qltb_ge. unfold Qdiv. rewrite Qmult_0_l. done.
Qed.

(** ** Further properties of the suppressor *)

(** X1: a single detection, of any score and box, passes through the
    suppressor unchanged, whatever the threshold. *)
Theorem apply_nms_singleton (d : Detection) (thr : Q) :
  apply_nms [d] thr = Some [d].
Proof. by rewrite apply_nms_greedy. Qed.

Lemma apply_nms_elem (ds out : list Detection) (thr : Q) (d : Detection) :
  apply_nms ds thr = Some out -> d ∈ out -> d ∈ ds.
Proof.
  rewrite apply_nms_greedy. intros [= <-] Hd.
  rewrite <- (sort_desc_perm score ds).
  eapply elem_of_sublist; [done|apply greedy_select_sublist].
Qed.

Lemma greedy_select_keeps_all {A} (sup : A -> A -> bool) (l : list A) :
  (forall x y, x ∈ l -> y ∈ l -> sup x y = false) ->
  greedy_select sup (length l) l = l.
Proof.
  intros Hfree. apply greedy_select_id; [done|].
  induction l as [|x l IH]; constructor.
  - apply Forall_forall. intros y Hy. apply Hfree; [left|by right].
  - apply IH. intros y z Hy Hz. apply Hfree; by right.
Qed.


(** X9: the suppressor is idempotent: run on its own output, it
    returns that output unchanged. *)
Theorem apply_nms_idempotent (ds out : list Detection) (thr : Q) :
  apply_nms ds thr = Some out -> apply_nms out thr = Some out.
Proof.
  rewrite !apply_nms_greedy. intros [= <-].
  set (out := greedy_select _ (length ds) (sort_desc score ds)).
  assert (Hsorted : StronglySorted (desc score) out).
  { eapply sorted_sublist; [apply greedy_select_sublist|apply sort_desc_sorted]. }
  rewrite (sort_desc_id score out Hsorted). f_equal.
  apply greedy_select_id; [done|]. apply greedy_select_pairwise.
Qed.

Lemma apply_nms_idempotent_witness :
  apply_nms [cat] (1 # 2) = Some [cat].
Proof.
  apply (apply_nms_idempotent [dog; cat] [cat] (1 # 2)). by vm_compute.
Defined.

(** X6: with a threshold of 1 or more nothing is suppressed, not even
    an exact duplicate: on well-formed boxes every detection of the
    input is kept. *)
Theorem apply_nms_threshold_one (ds : list Detection) (thr : Q) :
  Forall (fun d => wf_box (box d)) ds ->
  (1 <= thr)%Q ->
  exists out, apply_nms ds thr = Some out /\ out ≡ₚ ds.
Proof.
  intros Hwf Ht. exists (sort_desc score ds). split; [|apply sort_desc_perm].
  rewrite apply_nms_greedy. f_equal.
  rewrite <- (sort_desc_length score ds). apply greedy_select_keeps_all.
  rewrite Forall_forall in Hwf.
  intros x y Hx Hy. rewrite sort_desc_perm in Hx, Hy.
  apply no_suppression_at_one; auto.
Qed.

Lemma apply_nms_threshold_one_witness :
  exists out,
    apply_nms [narrow; wide; narrow] 1 = Some out /\ out ≡ₚ [narrow; wide; narrow].
Proof.
  apply (apply_nms_threshold_one [narrow; wide; narrow] 1).
  - repeat constructor; by vm_compute.
  - by vm_compute.
Defined.

(** X8: detections whose boxes are pairwise apart (no overlap; touching
    edges allowed) are all kept, for every threshold that is not
    negative. *)
Theorem apply_nms_apart_kept (ds : list Detection) (thr : Q) :
  (0 <= thr)%Q ->
  ForallOrdPairs (fun x y => apart (box x) (box y)) ds ->
  exists out, apply_nms ds thr = Some out /\ out ≡ₚ ds.
Proof.
  intros Ht Hap. exists (sort_desc score ds). split; [|apply sort_desc_perm].
  rewrite apply_nms_greedy. f_equal.
  rewrite <- (sort_desc_length score ds) at 1.
  apply greedy_select_id; [done|].
  eapply pairwise_impl; [|eapply pairwise_perm; [| |exact Hap]].
  - cbn. intros x y Hxy. by apply apart_not_suppressed.
  - intros x y. apply apart_sym.
  - symmetry. apply sort_desc_perm.
Qed.

Lemma apply_nms_apart_kept_witness :
  let far := mkDetection "yield" (9 # 10) (mkBox 2 0 3 1) in
  exists out,
    apply_nms [wide; far; sliver] (1 # 2) = Some out /\ out ≡ₚ [wide; far; sliver].
Proof.
  intros far. apply (apply_nms_apart_kept [wide; far; sliver] (1 # 2)).
  - by vm_compute.
  - repeat (apply FOP_cons || apply List.Forall_cons || apply List.Forall_nil
            || apply FOP_nil);
      unfold apart; cbn; lra.
Defined.

(** ** Floats that are numbers *)

Lemma shr_1_nonneg mrs : (0 <= shr_m mrs)%Z -> (0 <= shr_m (shr_1 mrs))%Z.
Proof.
  destruct mrs as [m r s]. cbn.
  destruct m as [|p|p]; [done| |lia].
  intros _. destruct p; cbn; lia.
Qed.

Lemma iter_pos_shr_1_nonneg p :
  forall mrs, (0 <= shr_m mrs)%Z -> (0 <= shr_m (SpecFloat.iter_pos shr_1 p mrs))%Z.
Proof.
  induction p as [p IH|p IH|]; intros mrs Hm; cbn.
  - apply IH, IH. by apply shr_1_nonneg.
  - by apply IH, IH.
  - by apply shr_1_nonneg.
Qed.

Lemma shr_fexp_nonneg prec emax m e l :
  (0 <= m)%Z -> (0 <= shr_m (shr_fexp prec emax m e l).1)%Z.
Proof.
  intros Hm. unfold shr_fexp, shr.
  assert (H0 : (0 <= shr_m (shr_record_of_loc m l))%Z).
  { destruct l as [|[]]; done. }
  destruct (_ - e)%Z; cbn; try done. by apply iter_pos_shr_1_nonneg.
Qed.

Lemma round_nearest_even_nonneg m l : (0 <= m)%Z -> (0 <= round_nearest_even m l)%Z.
Proof.
  intros Hm. destruct l as [|[]]; cbn; try lia. destruct (Z.even m); lia.
Qed.

Lemma binary_round_aux_number prec emax sx mx ex lx :
  (0 <= mx)%Z -> is_number (binary_round_aux prec emax sx mx ex lx).
Proof.
  intros Hm. unfold binary_round_aux.
  pose proof (shr_fexp_nonneg prec emax mx ex lx Hm) as H1.
  destruct (shr_fexp prec emax mx ex lx) as [mrs' e']. cbn in H1.
  pose proof (shr_fexp_nonneg prec emax
                (round_nearest_even (shr_m mrs') (loc_of_shr_record mrs')) e'
                loc_Exact (round_nearest_even_nonneg _ _ H1)) as H2.
  destruct (shr_fexp prec emax _ e' loc_Exact) as [mrs'' e'']. cbn in H2.
  destruct (shr_m mrs'') as [|p|p]; [done| |lia].
  by destruct (_ <=? _)%Z.
Qed.

Lemma binary_normalize_number prec emax m e szero :
  is_number (binary_normalize prec emax m e szero).
Proof.
  destruct m as [|p|p]; cbn; [done| |]; unfold binary_round;
    destruct (shl_align _ _ _); by apply binary_round_aux_number.
Qed.

Lemma of_Q_number q : is_number (F32.of_Q q).
Proof.
  unfold F32.of_Q, F32.narrow.
  pose proof (binary_normalize_number 53 1024) as Hd.
  unfold F32.double, round_Q. cbv zeta.
  match goal with |- context [binary_normalize 53 1024 ?m ?e ?s] =>
    specialize (Hd m e s); destruct (binary_normalize 53 1024 m e s) end;
    try done.
  apply binary_normalize_number.
Qed.

(** [round_Q] against the library's correctly rounded division, on
    quotients of integers that are floats themselves. *)
Lemma round_Q_examples :
  let quotient (prec emax : Z) (q : Q) :=
    SFdiv prec emax (binary_normalize prec emax (Qnum q) 0 false)
      (binary_normalize prec emax (Zpos (Qden q)) 0 false) in
  Forall (fun q => round_Q 53 1024 q = quotient 53%Z 1024%Z q
                   /\ round_Q 24 128 q = quotient 24%Z 128%Z q)
    [1 # 10; 1 # 3; -7 # 3; 25 # 175; 9 # 10; 85 # 100; 0 # 5; 3 # 4;
     16777215 # 1; -1 # 16777216; 5 # 7; 1 # 1]
  /\ round_Q 24 128 (3 # 2 ^ 150) = S754_finite false 2 (-149)
  /\ round_Q 24 128 (-1 # 2 ^ 160) = S754_zero true
  /\ round_Q 24 128 (2 ^ 200 # 1) = S754_infinity false
  /\ F32.of_Q (536870913 # 1073741824) = F32.of_Q (1 # 2).
Proof.
  intros quotient. split; [repeat constructor; by vm_compute|].
  repeat split; by vm_compute.
Qed.

(** ** The order of floats *)

Ltac float_order :=
  cbn in *;
  repeat match goal with
    | |- context [Pos.compare_cont Eq ?a ?b] =>
        change (Pos.compare_cont Eq a b) with (Pos.compare a b)
    | H : context [Pos.compare_cont Eq ?a ?b] |- _ =>
        change (Pos.compare_cont Eq a b) with (Pos.compare a b) in H
    end;
  repeat match goal with
    | |- context [(?a ?= ?b)%Z] => destruct (Z.compare_spec a b)
    | H : context [(?a ?= ?b)%Z] |- _ => destruct (Z.compare_spec a b)
    end;
  repeat match goal with
    | |- context [(?a ?= ?b)%positive] => destruct (Pos.compare_spec a b)
    | H : context [(?a ?= ?b)%positive] |- _ => destruct (Pos.compare_spec a b)
    end;
  cbn in *; try done; try lia.

Lemma SFltb_asym a b : SFltb a b = true -> SFltb b a = false.
Proof.
  unfold SFltb.
  destruct a as [sa|sa| |sa ma ea], b as [sb|sb| |sb mb eb];
    try destruct sa; try destruct sb; float_order.
Qed.

Lemma SFltb_negtrans a b c :
  is_number a -> is_number b -> is_number c ->
  SFltb a b = false -> SFltb b c = false -> SFltb a c = false.
Proof.
  unfold SFltb, is_number.
  destruct a as [sa|sa| |sa ma ea], b as [sb|sb| |sb mb eb],
    c as [sc|sc| |sc mc ec];
    try destruct sa; try destruct sb; try destruct sc; intros ? ? ?;
    try done; float_order.
Qed.

(** ** The stable sort *)

Lemma insert_by_perm {A} (ltb : A -> A -> bool) x l : insert_by ltb x l ≡ₚ x :: l.
Proof.
  induction l as [|y l IH]; cbn; [done|].
  destruct (ltb x y); [|done]. rewrite IH. apply Permutation_swap.
Qed.

Lemma sort_by_perm {A} (ltb : A -> A -> bool) l : sort_by ltb l ≡ₚ l.
Proof.
  induction l as [|x l IH]; cbn; [done|].
  fold (sort_by ltb l). by rewrite insert_by_perm, IH.
Qed.

Lemma sort_by_length {A} (ltb : A -> A -> bool) l :
  length (sort_by ltb l) = length l.
Proof. by rewrite sort_by_perm. Qed.

Lemma sort_by_Forall2 {A B} (R : A -> B -> Prop)
    (ltA : A -> A -> bool) (ltB : B -> B -> bool) l k :
  (forall a b a' b', R a b -> R a' b' -> ltA a a' = ltB b b') ->
  Forall2 R l k -> Forall2 R (sort_by ltA l) (sort_by ltB k).
Proof.
  intros Hlt Hlk. induction Hlk as [|x y l k Hxy _ IH]; cbn; [constructor|].
  fold (sort_by ltA l) (sort_by ltB k).
  induction IH as [|a b l' k' Hab Hl'k' IH']; cbn.
  - by repeat constructor.
  - rewrite (Hlt _ _ _ _ Hxy Hab).
    destruct (ltB y b); [by constructor|by repeat constructor].
Qed.

(** When [ltb] is the strict part of a total preorder, the sorted list
    is in order: no element is less than a later one. *)
Lemma sort_by_sorted {A} (ltb : A -> A -> bool) l :
  (forall x y, ltb x y = true -> ltb y x = false) ->
  (forall x y z, ltb x y = false -> ltb y z = false -> ltb x z = false) ->
  StronglySorted (fun x y => ltb x y = false) (sort_by ltb l).
Proof.
  intros Hasym Htrans. induction l as [|x l IH]; cbn; [constructor|].
  fold (sort_by ltb l). induction IH as [|y l' Hl' IH' Hy]; cbn.
  - by repeat constructor.
  - destruct (ltb x y) eqn:Hxy.
    + constructor; [done|]. rewrite insert_by_perm.
      constructor; [by apply Hasym|done].
    + constructor; [by constructor|]. constructor; [done|].
      eapply Forall_impl; [exact Hy|]. cbn. intros z Hz. by eapply Htrans.
Qed.

Lemma sort_by_id {A} (ltb : A -> A -> bool) l :
  StronglySorted (fun x y => ltb x y = false) l -> sort_by ltb l = l.
Proof.
  induction 1 as [|x l Hl IH Hx]; [done|].
  cbn. fold (sort_by ltb l). rewrite IH.
  destruct l as [|y l']; [done|]. cbn.
  apply Forall_cons in Hx as [Hxy _]. by rewrite Hxy.
Qed.

(** ** The order of the [scores] tensor *)

Lemma score_lt_asym d d' : F32.score_lt d d' = true -> F32.score_lt d' d = false.
Proof. apply SFltb_asym. Qed.

Lemma score_lt_negtrans d1 d2 d3 :
  F32.score_lt d1 d2 = false -> F32.score_lt d2 d3 = false ->
  F32.score_lt d1 d3 = false.
Proof. apply SFltb_negtrans; apply of_Q_number. Qed.

Lemma sort_by_score_sorted ds :
  StronglySorted (fun d d' => F32.score_lt d d' = false) (sort_by F32.score_lt ds).
Proof.
  apply sort_by_sorted; [apply score_lt_asym|apply score_lt_negtrans].
Qed.

(** ** [F32.nms] returns the greedy selection over [order] *)

Lemma argsort32_perm scores :
  F32.argsort_desc scores ≡ₚ seq 0 (length scores).
Proof.
  unfold F32.argsort_desc. rewrite sort_by_perm.
  by rewrite fst_zip by (by rewrite length_seq).
Qed.

Lemma argsort32_length scores : length (F32.argsort_desc scores) = length scores.
Proof. by rewrite argsort32_perm, length_seq. Qed.

Lemma argsort32_bound scores :
  Forall (fun j => j < length scores) (F32.argsort_desc scores).
Proof.
  rewrite argsort32_perm. apply Forall_forall.
  intros j Hj%elem_of_seq. lia.
Qed.

Lemma nms32_greedy rows scores thr :
  length scores = length rows ->
  F32.nms rows scores thr
  = greedy_select (fun i j => F32.gt (F32.ovr (rows !!! i) (rows !!! j)) thr)
      (length rows) (F32.argsort_desc scores).
Proof.
  intros Hlen. unfold F32.nms. destruct rows as [|r rows']; [done|].
  set (rows := r :: rows') in *.
  pose proof (argsort32_length scores) as Hol.
  pose proof (argsort32_bound scores) as Hob.
  rewrite <- Hlen, <- Hol. rewrite <- Hol in Hob.
  change (F32.nms_outer rows thr (F32.argsort_desc scores))
    with (scan_outer (fun i j => F32.gt (F32.ovr (rows !!! i) (rows !!! j)) thr)
            (F32.argsort_desc scores)).
  by apply scan_greedy.
Qed.

Lemma zip_seq_related32 (ds : list Detection) :
  forall s (pre : list Detection),
    length pre = s ->
    Forall2 (fun (p : nat * spec_float) d =>
               (pre ++ ds) !! p.1 = Some d /\ p.2 = F32.of_Q (score d))
      (zip (seq s (length ds)) ((fun d => F32.of_Q (score d)) <$> ds)) ds.
Proof.
  induction ds as [|d ds IH]; intros s pre Hs; cbn; constructor.
  - cbn. split; [|done]. by rewrite list_lookup_middle.
  - specialize (IH (S s) (pre ++ [d])). rewrite <- app_assoc in IH.
    apply IH. rewrite length_app. cbn. lia.
Qed.

Lemma argsort32_related (ds : list Detection) :
  Forall2 (fun i d => ds !! i = Some d)
    (F32.argsort_desc ((fun d => F32.of_Q (score d)) <$> ds))
    (sort_by F32.score_lt ds).
Proof.
  unfold F32.argsort_desc. rewrite length_fmap. apply Forall2_fmap_l.
  eapply Forall2_impl.
  - apply (sort_by_Forall2
             (fun (p : nat * spec_float) d =>
                ds !! p.1 = Some d /\ p.2 = F32.of_Q (score d))).
    + intros p d p' d' [_ Hp] [_ Hp']. unfold F32.score_lt. by rewrite Hp, Hp'.
    + apply (zip_seq_related32 ds 0 []). done.
  - cbn. by intros p d [? _].
Qed.

(** The float32 suppressor never raises, and what it returns is the
    greedy selection over the detections in the order of the [scores]
    tensor. *)
Lemma apply_nms32_greedy (ds : list Detection) (thr : Q) :
  F32.apply_nms ds thr = Some (F32.strict_nms ds thr).
Proof.
  unfold F32.apply_nms, F32.strict_nms. destruct ds as [|d0 ds']; [done|].
  set (ds := d0 :: ds') in *.
  apply mapM_Some.
  rewrite nms32_greedy by (by rewrite !length_fmap).
  rewrite length_fmap.
  apply (greedy_select_Forall2 (fun i d => ds !! i = Some d)).
  - intros i d j d' Hi Hj. unfold F32.suppresses.
    rewrite (list_lookup_total_correct ((fun d => F32.row (box d)) <$> ds) i
               (F32.row (box d))) by (by rewrite list_lookup_fmap, Hi).
    by rewrite (list_lookup_total_correct ((fun d => F32.row (box d)) <$> ds) j
                  (F32.row (box d'))) by (by rewrite list_lookup_fmap, Hj).
  - apply argsort32_related.
Qed.

(** ** The suppressor on float32 tensors *)

(** Rounding changes the outcome both ways: on the first pair of grid
    boxes the float32 test suppresses and the exact one does not, on
    the second pair it is the reverse, and two scores that differ as
    Python floats can be one float32. *)
Lemma rounding_changes_the_outcome :
  (F32.suppresses (1 # 2) grid_a grid_b = true
   /\ kernel_suppresses (1 # 2) grid_a grid_b = false)
  /\ (F32.suppresses (1 # 2) grid_c grid_d = false
      /\ kernel_suppresses (1 # 2) grid_c grid_d = true)
  /\ (F32.apply_nms [level; above] (1 # 2) = Some [level]
      /\ apply_nms [level; above] (1 # 2) = Some [above]).
Proof. repeat split; by vm_compute. Qed.

(** On the detections that the exact reading is evaluated on, the two
    readings return the same. *)
Lemma float32_agrees_on_examples :
  Forall (fun '(ds, thr) => F32.apply_nms ds thr = apply_nms ds thr)
    [([cat; dog], 1 # 2); ([dog; cat], 1 # 2); ([wide; narrow], 1 # 2);
     ([wide; sliver; sliver], 1 # 2); ([narrow; wide; narrow], 1%Q);
     ([dog; cat], 1 # 4); ([] , 1 # 2); ([sliver], 1 # 2)].
Proof. repeat constructor; by vm_compute. Qed.

(** The float32 suppressor only filters. *)
Lemma apply_nms32_filters_only (ds : list Detection) (thr : Q) :
  exists out, F32.apply_nms ds thr = Some out /\ out ⊆+ ds.
Proof.
  eexists. split; [apply apply_nms32_greedy|]. unfold F32.strict_nms.
  rewrite <- (sort_by_perm F32.score_lt ds) at 3.
  apply sublist_submseteq, greedy_select_sublist.
Qed.

(** C1, as stated, fails: at the boundary pair, whose IoU is exactly
    the threshold 1/2 (in float32 as well), the suppressor returns both
    detections and the reference algorithm with [>=] returns only the
    first. *)
Lemma apply_nms32_differs_from_spec_nms :
  (0 < 1 # 2)%Q /\ (1 # 2 <= 1)%Q
  /\ F32.apply_nms [wide; narrow] (1 # 2) = Some [wide; narrow]
  /\ spec_nms [wide; narrow] (1 # 2) = [wide]
  /\ F32.apply_nms [wide; narrow] (1 # 2) <> Some (spec_nms [wide; narrow] (1 # 2)).
Proof.
  assert (H1 : F32.apply_nms [wide; narrow] (1 # 2) = Some [wide; narrow])
    by (vm_compute; reflexivity).
  assert (H2 : spec_nms [wide; narrow] (1 # 2) = [wide])
    by (vm_compute; reflexivity).
  split; [reflexivity|]. split; [discriminate|].
  split; [exact H1|]. split; [exact H2|].
  rewrite H1, H2. discriminate.
Qed.

(** C1, amended: for every list of detections and every threshold, the
    suppressor returns exactly the result of the greedy algorithm
    carried out on the float32 values: take the detections in
    descending order of their float32 score, ties in input order;
    repeatedly keep the first remaining detection and discard every
    remaining detection whose IoU with it, as the kernel computes it in
    float32, is strictly greater than the threshold; the kept list is
    returned in that order, so no kept detection has a lower float32
    score than a later one. *)
Theorem apply_nms32_is_strict_nms (ds : list Detection) (thr : Q) :
  F32.apply_nms ds thr = Some (F32.strict_nms ds thr)
  /\ StronglySorted (fun d d' => F32.score_lt d d' = false) (F32.strict_nms ds thr).
Proof.
  split; [apply apply_nms32_greedy|].
  eapply sorted_sublist; [apply greedy_select_sublist|apply sort_by_score_sorted].
Qed.

(** C2, as stated, fails: the boxes of the boundary pair have IoU
    exactly 1/2, also as the kernel computes it, and with threshold 1/2
    the lower-scoring detection is still in the output. *)
Lemma boundary_pair_kept32 :
  F32.iou_is (1 # 2) (box wide) (box narrow) = true
  /\ feq (ovr (box wide) (box narrow)) (1 # 2) = true
  /\ (score narrow < score wide)%Q
  /\ exists out, F32.apply_nms [wide; narrow] (1 # 2) = Some out /\ narrow ∈ out.
Proof.
  split; [by vm_compute|]. split; [by vm_compute|]. split; [by vm_compute|].
  exists [wide; narrow]. split; [by vm_compute|]. right; left.
Qed.

Lemma iou_is_not_suppresses thr a b :
  F32.iou_is thr a b = true -> F32.suppresses thr a b = false.
Proof.
  unfold F32.iou_is, F32.suppresses, F32.gt, SFeqb, SFltb.
  by destruct (SFcompare _ _) as [[]|].
Qed.

Lemma apply_nms32_two (d1 d2 : Detection) (thr : Q) :
  F32.apply_nms [d1; d2] thr
  = Some (if F32.score_lt d1 d2
          then (if F32.suppresses thr (box d2) (box d1) then [d2] else [d2; d1])
          else (if F32.suppresses thr (box d1) (box d2) then [d1] else [d1; d2])).
Proof.
  rewrite apply_nms32_greedy. unfold F32.strict_nms, sort_by.
  cbn [length foldr insert_by].
  destruct (F32.score_lt d1 d2); cbn [greedy_select].
  - destruct (F32.suppresses thr (box d2) (box d1)) eqn:Hk.
    + by rewrite filter_cons_False by congruence.
    + by rewrite filter_cons_True by done.
  - destruct (F32.suppresses thr (box d1) (box d2)) eqn:Hk.
    + by rewrite filter_cons_False by congruence.
    + by rewrite filter_cons_True by done.
Qed.

(** C2, amended: for every pair of detections whose IoU, as the kernel
    computes it in float32 (either way round), is exactly equal to the
    threshold, neither suppresses the other and the suppressor keeps
    both (the comparison used for suppression is strictly greater than
    the threshold). *)
Theorem apply_nms32_boundary_keeps_both (d1 d2 : Detection) (thr : Q) :
  F32.iou_is thr (box d1) (box d2) = true ->
  F32.iou_is thr (box d2) (box d1) = true ->
  F32.suppresses thr (box d1) (box d2) = false
  /\ F32.suppresses thr (box d2) (box d1) = false
  /\ exists out, F32.apply_nms [d1; d2] thr = Some out /\ out ≡ₚ [d1; d2].
Proof.
  intros H12%iou_is_not_suppresses H21%iou_is_not_suppresses.
  split; [done|]. split; [done|].
  rewrite apply_nms32_two, H12, H21. eexists. split; [done|].
  destruct (F32.score_lt d1 d2); [apply Permutation_swap|done].
Qed.

Lemma apply_nms32_boundary_keeps_both_witness :
  F32.suppresses (1 # 2) (box narrow) (box wide) = false
  /\ F32.suppresses (1 # 2) (box wide) (box narrow) = false
  /\ exists out, F32.apply_nms [narrow; wide] (1 # 2) = Some out
                 /\ out ≡ₚ [narrow; wide].
Proof.
  apply (apply_nms32_boundary_keeps_both narrow wide (1 # 2)); by vm_compute.
Defined.

(** C7, as stated, fails: of two detections on the boxes {0,0,10,10}
    and {5,5,15,15} whose scores differ as Python floats and agree in
    float32, the suppressor at threshold 0.1 keeps the one that comes
    first in the input, here the lower-scoring one. *)
Lemma iou_example_keeps_lower :
  let lo := mkDetection "stop" (1 # 2) boxB in
  let hi := mkDetection "yield" (536870913 # 1073741824) boxA in
  (score lo < score hi)%Q
  /\ F32.apply_nms [lo; hi] (1 # 10) = Some [lo].
Proof. split; by vm_compute. Qed.

(** C7, amended: for the boxes {0,0,10,10} and {5,5,15,15} the IoU the
    suppressor computes is the float32 nearest to 25/175; so of two
    detections carrying these boxes both are kept at threshold 0.5,
    and at threshold 0.1 only one is kept: the one whose float32 score
    is higher, in whichever order they are given, or, when the two
    float32 scores are equal, the one that comes first in the input. *)
Theorem apply_nms32_iou_example (l1 l2 : string) (s1 s2 : Q) (swap : bool) :
  let d1 := mkDetection l1 s1 (if swap then boxB else boxA) in
  let d2 := mkDetection l2 s2 (if swap then boxA else boxB) in
  F32.ovr (F32.row boxA) (F32.row boxB) = round_Q 24 128 (25 # 175)
  /\ F32.ovr (F32.row boxB) (F32.row boxA) = round_Q 24 128 (25 # 175)
  /\ (F32.score_lt d2 d1 = true ->
      F32.apply_nms [d1; d2] (1 # 2) = Some [d1; d2]
      /\ F32.apply_nms [d2; d1] (1 # 2) = Some [d1; d2]
      /\ F32.apply_nms [d1; d2] (1 # 10) = Some [d1]
      /\ F32.apply_nms [d2; d1] (1 # 10) = Some [d1])
  /\ (F32.score_lt d1 d2 = false -> F32.score_lt d2 d1 = false ->
      F32.apply_nms [d1; d2] (1 # 2) = Some [d1; d2]
      /\ F32.apply_nms [d1; d2] (1 # 10) = Some [d1]).
Proof.
  intros d1 d2. split; [by vm_compute|]. split; [by vm_compute|].
  assert (Hhalf : F32.suppresses (1 # 2) (box d1) (box d2) = false
                  /\ F32.suppresses (1 # 2) (box d2) (box d1) = false)
    by (destruct swap; split; by vm_compute).
  assert (Htenth : F32.suppresses (1 # 10) (box d1) (box d2) = true
                   /\ F32.suppresses (1 # 10) (box d2) (box d1) = true)
    by (destruct swap; split; by vm_compute).
  destruct Hhalf as [Hh1 Hh2], Htenth as [Ht1 Ht2]. split.
  - intros Hlt. pose proof (score_lt_asym _ _ Hlt) as Hnlt.
    rewrite !apply_nms32_two, Hlt, Hnlt, Hh1, Ht1. done.
  - intros Hn1 Hn2. rewrite !apply_nms32_two, Hn1, Hh1, Ht1. done.
Qed.

Lemma apply_nms32_iou_example_witness :
  let d1 := mkDetection "stop" (9 # 10) boxB in
  let d2 := mkDetection "yield" (8 # 10) boxA in
  let e1 := mkDetection "stop" (1 # 2) boxB in
  let e2 := mkDetection "yield" (536870913 # 1073741824) boxA in
  (F32.apply_nms [d1; d2] (1 # 2) = Some [d1; d2]
   /\ F32.apply_nms [d2; d1] (1 # 2) = Some [d1; d2]
   /\ F32.apply_nms [d1; d2] (1 # 10) = Some [d1]
   /\ F32.apply_nms [d2; d1] (1 # 10) = Some [d1])
  /\ (F32.apply_nms [e1; e2] (1 # 2) = Some [e1; e2]
      /\ F32.apply_nms [e1; e2] (1 # 10) = Some [e1]).
Proof.
  intros d1 d2 e1 e2. split.
  - apply (apply_nms32_iou_example "stop" "yield" (9 # 10) (8 # 10) true).
    by vm_compute.
  - apply (apply_nms32_iou_example "stop" "yield" (1 # 2)
             (536870913 # 1073741824) true); by vm_compute.
Defined.

(** C10, as stated, fails: of two detections on one box whose scores
    round to the same float32, the suppressor keeps the first of the
    input and drops the other one, which has the highest score. *)
Lemma highest_score_dropped :
  (score level < score above)%Q
  /\ F32.apply_nms [level; above] (1 # 2) = Some [level]
  /\ above ∉ [level].
Proof.
  split; [by vm_compute|]. split; [by vm_compute|].
  intros Hin%list_elem_of_singleton. discriminate Hin.
Qed.

(** C10, amended: on a non-empty input the output of the suppressor is
    non-empty, whatever the threshold: its first element is a
    detection of the input whose float32 score no detection of the
    input exceeds. *)
Theorem apply_nms32_keeps_best (ds : list Detection) (thr : Q) :
  ds <> [] ->
  exists best out,
    F32.apply_nms ds thr = Some (best :: out)
    /\ best ∈ ds
    /\ forall d, d ∈ ds -> F32.score_lt best d = false.
Proof.
  intros Hne. rewrite apply_nms32_greedy. unfold F32.strict_nms.
  pose proof (sort_by_perm F32.score_lt ds) as Hperm.
  pose proof (sort_by_score_sorted ds) as Hsorted.
  destruct (sort_by F32.score_lt ds) as [|best rest] eqn:Hs.
  { apply Permutation_nil_l in Hperm. congruence. }
  destruct ds as [|d0 ds']; [done|]. cbn [length greedy_select].
  eexists best, _. split; [done|]. split.
  - rewrite <- Hperm. left.
  - intros d Hd. rewrite <- Hperm in Hd.
    apply StronglySorted_inv in Hsorted as [_ Hall].
    apply elem_of_cons in Hd as [->|Hd].
    + unfold F32.score_lt, SFltb.
      destruct (F32.of_Q (score best)) as [[]|[]| |[] m e]; cbn; try done;
        rewrite Z.compare_refl;
        change (Pos.compare_cont Eq m m) with (Pos.compare m m);
        by rewrite Pos.compare_refl.
    + rewrite Forall_forall in Hall. by apply Hall.
Qed.

Lemma apply_nms32_keeps_best_witness :
  exists best out,
    F32.apply_nms [narrow; above; level] (1 # 2) = Some (best :: out)
    /\ best ∈ [narrow; above; level]
    /\ forall d, d ∈ [narrow; above; level] -> F32.score_lt best d = false.
Proof.
  apply (apply_nms32_keeps_best [narrow; above; level] (1 # 2)). discriminate.
Defined.

(** ** Further properties of the suppressor on float32 tensors *)

(** X2: in the output no detection is suppressed by one that precedes
    it: for a detection of the output and any later one the kernel's
    float32 test [ovr > iou_threshold] is false. *)
Theorem apply_nms32_kept_pairwise (ds : list Detection) (thr : Q) :
  exists out,
    F32.apply_nms ds thr = Some out
    /\ ForallOrdPairs
         (fun x y => F32.suppresses thr (box x) (box y) = false) out.
Proof.
  eexists. split; [apply apply_nms32_greedy|].
  apply greedy_select_pairwise.
Qed.

(** X3: a detection of the input is left out only for a reason: every
    input detection is in the output, or some detection of the output,
    whose float32 score is not lower, suppresses it. *)
Theorem apply_nms32_discarded_suppressed (ds : list Detection) (thr : Q) :
  exists out,
    F32.apply_nms ds thr = Some out
    /\ forall d, d ∈ ds ->
         d ∈ out
         \/ exists k, k ∈ out
              /\ F32.suppresses thr (box k) (box d) = true
              /\ F32.score_lt k d = false.
Proof.
  eexists. split; [apply apply_nms32_greedy|].
  intros d Hd. rewrite <- (sort_by_perm F32.score_lt ds) in Hd.
  assert (Hfuel : length (sort_by F32.score_lt ds) <= length ds)
    by (by rewrite sort_by_length).
  exact (greedy_select_covers
           (fun d d' => F32.suppresses thr (box d) (box d'))
           (fun d d' => F32.score_lt d d' = false)
           (length ds) (sort_by F32.score_lt ds) Hfuel (sort_by_score_sorted ds)
           d Hd).
Qed.

(** X5: when no two different detections of the input have the same
    float32 score, the output does not depend on the order of the
    input list. *)
Theorem apply_nms32_input_order (ds ds' : list Detection) (thr : Q) :
  ds ≡ₚ ds' ->
  (forall d1 d2, d1 ∈ ds -> d2 ∈ ds ->
     F32.score_lt d1 d2 = false -> F32.score_lt d2 d1 = false -> d1 = d2) ->
  F32.apply_nms ds thr = F32.apply_nms ds' thr.
Proof.
  intros Hp Hdistinct. rewrite !apply_nms32_greedy. unfold F32.strict_nms.
  rewrite <- (Permutation_length Hp). do 2 f_equal.
  apply (StronglySorted_unique_strong (fun d d' => F32.score_lt d d' = false)).
  - intros d1 d2 H1 H2 H12 H21.
    rewrite sort_by_perm in H1. rewrite sort_by_perm, <- Hp in H2.
    by apply Hdistinct.
  - apply sort_by_score_sorted.
  - apply sort_by_score_sorted.
  - by rewrite !sort_by_perm.
Qed.

Lemma apply_nms32_input_order_witness :
  F32.apply_nms [wide; narrow; cat] (1 # 4) = F32.apply_nms [cat; narrow; wide] (1 # 4).
Proof.
  apply (apply_nms32_input_order [wide; narrow; cat] [cat; narrow; wide] (1 # 4)).
  - exact (Permutation_rev [wide; narrow; cat]).
  - intros d1 d2 H1 H2.
    repeat (apply elem_of_cons in H1 as [->|H1]);
      repeat (apply elem_of_cons in H2 as [->|H2]);
      try (by apply elem_of_nil in H1); try (by apply elem_of_nil in H2);
      intros Hn1 Hn2; try reflexivity;
      (by vm_compute in Hn1) || (by vm_compute in Hn2).
Defined.

(** ** Further properties of the handler *)

Section HandlerRuns.

Context {Contents Image : Type}.
Context (decode : Contents -> option Image) (to_bgr : Image -> Image).
Context (model : Image -> Z -> option (list Results)) (names : Z -> string).

(** Once the detector has raised, the remaining turns do nothing. *)
Lemma scale_loop_raised (img : Image) (szs : list Z) (log : list Z) :
  foldl (scale_step Image model names img) (None, log) szs = (None, log).
Proof. induction szs as [|sz szs IH]; [done|]. cbn [foldl]. apply IH. Qed.

(** The loop over sizes at which the detector returns. *)
Lemma scale_loop_returns (img : Image) (szs : list Z) (rs : list (list Results)) :
  Forall2 (fun sz r => model img sz = Some r) szs rs ->
  forall acc log,
    foldl (scale_step Image model names img) (Some acc, log) szs
    = (Some (acc ++ (emit names <$> confident (concat rs ≫= boxes))), log ++ szs).
Proof.
  induction 1 as [|sz r szs rs Hsz _ IH]; intros acc log; cbn [foldl].
  - by rewrite !app_nil_r.
  - unfold scale_step at 2. cbn [fst snd]. rewrite Hsz. cbn [fmap option_fmap option_map].
    rewrite IH, visit_results_flat, <- !app_assoc. cbn [concat].
    unfold confident. by rewrite bind_app, filter_app, fmap_app.
Qed.

(** The loop up to the first size at which the detector raises. *)
Lemma scale_loop_raises (img : Image) (before : list Z) (sz : Z) (later : list Z) :
  Forall (fun s => is_Some (model img s)) before ->
  model img sz = None ->
  forall acc log,
    foldl (scale_step Image model names img) (Some acc, log) (before ++ sz :: later)
    = (None, log ++ before ++ [sz]).
Proof.
  induction 1 as [|s before [r Hs] _ IH]; intros Hsz acc log; cbn [foldl app].
  - unfold scale_step at 2. cbn [fst snd]. rewrite Hsz. cbn [fmap option_fmap option_map].
    apply scale_loop_raised.
  - unfold scale_step at 2. cbn [fst snd]. rewrite Hs. cbn [fmap option_fmap option_map].
    rewrite IH by done. by rewrite <- app_assoc.
Qed.

Lemma accumulate_returns (img : Image) (r640 r960 r1280 : list Results) :
  model img 640%Z = Some r640 ->
  model img 960%Z = Some r960 ->
  model img 1280%Z = Some r1280 ->
  accumulate model names img
  = (Some (emit names <$> confident ((r640 ++ r960 ++ r1280) ≫= boxes)), scales).
Proof.
  intros H1 H2 H3. unfold accumulate.
  rewrite (scale_loop_returns img scales [r640; r960; r1280])
    by (repeat constructor; done).
  cbn [concat app]. by rewrite app_nil_r.
Qed.

(** What a run that answers with detections went through. *)
Lemma detect_answer_inv (contents : Contents) (final : list Detection) (calls : list Z) :
  detect decode to_bgr model names contents = (JsonDetections final, calls) ->
  exists image r640 r960 r1280,
    decode contents = Some image
    /\ model (to_bgr image) 640%Z = Some r640
    /\ model (to_bgr image) 960%Z = Some r960
    /\ model (to_bgr image) 1280%Z = Some r1280
    /\ apply_nms (emit names <$> confident ((r640 ++ r960 ++ r1280) ≫= boxes))
         IOU_THRESHOLD = Some final
    /\ calls = scales.
Proof.
  unfold detect. destruct (decode contents) as [image|]; [|done].
  destruct (model (to_bgr image) 640%Z) as [r640|] eqn:H1.
  2:{ unfold accumulate.
      rewrite (scale_loop_raises (to_bgr image) [] 640%Z [960; 1280]%Z
                 ltac:(constructor) H1).
      done. }
  destruct (model (to_bgr image) 960%Z) as [r960|] eqn:H2.
  2:{ unfold accumulate.
      rewrite (scale_loop_raises (to_bgr image) [640%Z] 960%Z [1280%Z]
                 ltac:(repeat constructor; by eexists) H2).
      done. }
  destruct (model (to_bgr image) 1280%Z) as [r1280|] eqn:H3.
  2:{ unfold accumulate.
      rewrite (scale_loop_raises (to_bgr image) [640; 960]%Z 1280%Z []
                 ltac:(repeat constructor; by eexists) H3).
      done. }
  rewrite (accumulate_returns _ _ _ _ H1 H2 H3). cbn [fst snd].
  destruct (apply_nms _ IOU_THRESHOLD) as [out|] eqn:Hout; [|done].
  intros [= <- <-]. by exists image, r640, r960, r1280.
Qed.

(** X10: the handler answers with a JSON object, the error payload,
    exactly when the upload does not decode; a decoded upload is
    answered with a list of detections or with the detector's
    exception. *)
Theorem detect_error_iff_undecodable (contents : Contents) :
  decode contents = None
  <-> exists fields,
        (detect decode to_bgr model names contents).1 = JsonObject fields.
Proof.
  unfold detect. split.
  - intros ->. by eexists.
  - intros [fields Hf]. destruct (decode contents) as [image|]; [|done].
    destruct (accumulate model names (to_bgr image)).1 as [detections|];
      [|done].
    by destruct (apply_nms detections IOU_THRESHOLD).
Qed.

(** X11: when the detector raises at one of the sizes, having returned
    at the sizes before it, the request ends with that exception: the
    detector has been called at the sizes up to that one and is not
    called at the later ones, and no detections are returned. *)
Theorem detect_detector_raises (contents : Contents) (image : Image)
    (before : list Z) (sz : Z) (later : list Z) :
  decode contents = Some image ->
  scales = before ++ sz :: later ->
  Forall (fun s => is_Some (model (to_bgr image) s)) before ->
  model (to_bgr image) sz = None ->
  detect decode to_bgr model names contents = (Propagated, before ++ [sz]).
Proof.
  intros Hdec Hsplit Hbefore Hsz. unfold detect, accumulate.
  rewrite Hdec, Hsplit.
  by rewrite (scale_loop_raises (to_bgr image) before sz later Hbefore Hsz).
Qed.

(** X12: on every request the detector calls are an initial part of
    640, 960, 1280, in this order: no size is used twice, none out of
    order, and no other size. *)
Theorem detect_calls_prefix (contents : Contents) :
  (detect decode to_bgr model names contents).2 `prefix_of` scales.
Proof.
  unfold detect. destruct (decode contents) as [image|]; [|apply prefix_nil].
  assert (Hacc : (accumulate model names (to_bgr image)).2 `prefix_of` scales).
  { destruct (model (to_bgr image) 640%Z) as [r640|] eqn:H1.
    2:{ unfold accumulate.
        rewrite (scale_loop_raises (to_bgr image) [] 640%Z [960; 1280]%Z
                   ltac:(constructor) H1).
        by exists [960; 1280]%Z. }
    destruct (model (to_bgr image) 960%Z) as [r960|] eqn:H2.
    2:{ unfold accumulate.
        rewrite (scale_loop_raises (to_bgr image) [640%Z] 960%Z [1280%Z]
                   ltac:(repeat constructor; by eexists) H2).
        by exists [1280%Z]. }
    destruct (model (to_bgr image) 1280%Z) as [r1280|] eqn:H3.
    2:{ unfold accumulate.
        rewrite (scale_loop_raises (to_bgr image) [640; 960]%Z 1280%Z []
                   ltac:(repeat constructor; by eexists) H3).
        by exists []. }
    by rewrite (accumulate_returns _ _ _ _ H1 H2 H3). }
  destruct (accumulate model names (to_bgr image)).1 as [detections|]; [|done].
  by destruct (apply_nms detections IOU_THRESHOLD).
Qed.

(** X13: every detection the handler returns has a score of at least
    0.4 and is the record of a raw box that the detector reported at
    one of the three sizes; and a run that returns detections has
    called the detector at all three. *)
Theorem detect_answer_sound (contents : Contents) (final : list Detection)
    (calls : list Z) :
  detect decode to_bgr model names contents = (JsonDetections final, calls) ->
  exists image,
    decode contents = Some image
    /\ calls = scales
    /\ forall d, d ∈ final ->
         (4 # 10 <= score d)%Q
         /\ exists sz results b,
              sz ∈ scales
              /\ model (to_bgr image) sz = Some results
              /\ b ∈ results ≫= boxes
              /\ d = emit names b.
Proof.
  intros (image & r640 & r960 & r1280 & Hdec & H1 & H2 & H3 & Hnms & ->)
    %detect_answer_inv.
  exists image. split; [done|]. split; [done|].
  intros d Hd. eapply apply_nms_elem in Hd; [|exact Hnms].
  apply list_elem_of_fmap in Hd as (b & -> & Hb).
  apply list_elem_of_filter in Hb as [Hc Hb]. split.
  - by apply Qle_bool_iff in Hc.
  - rewrite !bind_app in Hb.
    apply elem_of_app in Hb as [Hb|Hb]; [|apply elem_of_app in Hb as [Hb|Hb]].
    + exists 640%Z, r640, b. repeat split; try done. left.
    + exists 960%Z, r960, b. repeat split; try done. right; left.
    + exists 1280%Z, r1280, b. repeat split; try done. right; right; left.
Qed.

(** X14: when the detector returns at the three sizes and no raw box
    reaches a confidence of 0.4, the handler answers with the empty
    list. *)
Theorem detect_nothing_confident (contents : Contents) (image : Image)
    (r640 r960 r1280 : list Results) :
  decode contents = Some image ->
  model (to_bgr image) 640%Z = Some r640 ->
  model (to_bgr image) 960%Z = Some r960 ->
  model (to_bgr image) 1280%Z = Some r1280 ->
  Forall (fun b => (conf b < 4 # 10)%Q) ((r640 ++ r960 ++ r1280) ≫= boxes) ->
  detect decode to_bgr model names contents = (JsonDetections [], scales).
Proof.
  intros Hdec H1 H2 H3 Hlow. unfold detect.
  rewrite Hdec, (accumulate_returns _ _ _ _ H1 H2 H3). cbn [fst snd].
  assert (Hnone : confident ((r640 ++ r960 ++ r1280) ≫= boxes) = []).
  { unfold confident. induction Hlow as [|b bs Hb _ IH]; [done|].
    rewrite filter_cons_False; [done|].
    rewrite Qle_bool_iff. unfold CONFIDENCE_THRESHOLD. by apply Qlt_not_le. }
  by rewrite Hnone.
Qed.


End HandlerRuns.

Lemma detect_detector_raises_witness :
  detect sample_decode id flaky_model sample_names "img"%string
  = (Propagated, [640; 960]%Z).
Proof.
  apply (detect_detector_raises sample_decode id flaky_model sample_names
           "img"%string "img"%string [640%Z] 960%Z [1280%Z]).
  - reflexivity.
  - reflexivity.
  - repeat constructor. by eexists.
  - reflexivity.
Defined.

Lemma detect_answer_sound_witness :
  exists image,
    sample_decode "img" = Some image
    /\ scales = scales
    /\ forall d, d ∈ [mkDetection "stop" (9 # 10) (mkBox 0 0 10 10)] ->
         (4 # 10 <= score d)%Q
         /\ exists sz results b,
              sz ∈ scales
              /\ sample_model (id image) sz = Some results
              /\ b ∈ results ≫= boxes
              /\ d = emit sample_names b.
Proof.
  apply (detect_answer_sound sample_decode id sample_model sample_names
           "img"%string [mkDetection "stop" (9 # 10) (mkBox 0 0 10 10)] scales).
  by vm_compute.
Defined.

Lemma detect_nothing_confident_witness :
  detect sample_decode id quiet_model sample_names "img"%string
  = (JsonDetections [], scales).
Proof.
  apply (detect_nothing_confident sample_decode id quiet_model sample_names
           "img"%string "img"%string
           [mkResults [mkRawBox (3 # 10) 0 (mkBox 0 0 10 10)]; mkResults []]
           [mkResults [mkRawBox (3 # 10) 0 (mkBox 0 0 10 10)]; mkResults []]
           [mkResults [mkRawBox (3 # 10) 0 (mkBox 0 0 10 10)]; mkResults []]);
    try reflexivity.
  repeat constructor.
Defined.


(** ** The adapter's records, and the answer on float32 tensors *)

Section HandlerRecords.

Context {Contents Image : Type}.
Context (decode : Contents -> option Image) (to_bgr : Image -> Image).
Context (model : Image -> Z -> option (list Results)) (names : Z -> string).

Lemma accumulate_calls_prefix (img : Image) :
  (accumulate model names img).2 `prefix_of` [640; 960; 1280]%Z.
Proof.
  destruct (model img 640%Z) as [r640|] eqn:H1.
  2:{ unfold accumulate.
      rewrite (scale_loop_raises model names img [] 640%Z [960; 1280]%Z
                 ltac:(constructor) H1).
      by exists [960; 1280]%Z. }
  destruct (model img 960%Z) as [r960|] eqn:H2.
  2:{ unfold accumulate.
      rewrite (scale_loop_raises model names img [640%Z] 960%Z [1280%Z]
                 ltac:(repeat constructor; by eexists) H2).
      by exists [1280%Z]. }
  destruct (model img 1280%Z) as [r1280|] eqn:H3.
  2:{ unfold accumulate.
      rewrite (scale_loop_raises model names img [640; 960]%Z 1280%Z []
                 ltac:(repeat constructor; by eexists) H3).
      by exists []. }
  by rewrite (accumulate_returns model names _ _ _ _ H1 H2 H3).
Qed.

(** C3: for every decoded image the detector is called with an initial
    part of 640, 960, 1280, each size at most once and in this order;
    when it returns at the three sizes it has been called exactly once
    with each of them, and the accumulated list is the flat list, in
    the order of the sizes, of one record per raw detection whose
    confidence is at least 0.4: the label [model.names] gives for its
    class, its confidence as the score, and its box.  A raw detection
    has its record in the list if and only if its confidence is at
    least 0.4, and the record has no field for the size. *)
Theorem detect_multi_scale (contents : Contents) (image : Image) :
  decode contents = Some image ->
  (detect decode to_bgr model names contents).2 `prefix_of` [640; 960; 1280]%Z
  /\ forall r640 r960 r1280 : list Results,
       model (to_bgr image) 640%Z = Some r640 ->
       model (to_bgr image) 960%Z = Some r960 ->
       model (to_bgr image) 1280%Z = Some r1280 ->
       let raw := (r640 ++ r960 ++ r1280) ≫= boxes in
       let record b := mkDetection (names (cls b)) (conf b) (xyxy b) in
       let detections :=
         record <$> filter (fun b => Qle_bool (4 # 10) (conf b) = true) raw in
       accumulate model names (to_bgr image)
       = (Some detections, [640; 960; 1280]%Z)
       /\ (detect decode to_bgr model names contents).2 = [640; 960; 1280]%Z
       /\ (forall b, b ∈ raw -> record b ∈ detections <-> (4 # 10 <= conf b)%Q).
Proof.
  intros Hdec. split.
  - unfold detect. rewrite Hdec.
    pose proof (accumulate_calls_prefix (to_bgr image)) as Hpre.
    destruct (accumulate model names (to_bgr image)).1 as [detections|]; [|done].
    by destruct (apply_nms detections IOU_THRESHOLD).
  - intros r640 r960 r1280 H1 H2 H3 raw record detections.
    assert (Hacc : accumulate model names (to_bgr image)
                   = (Some detections, [640; 960; 1280]%Z))
      by exact (accumulate_returns model names _ _ _ _ H1 H2 H3).
    split; [done|]. split.
    + unfold detect. rewrite Hdec, Hacc. cbn [fst snd].
      by destruct (apply_nms detections IOU_THRESHOLD).
    + intros b Hb. rewrite <- Qle_bool_iff. split.
      * intros (b' & Hrec & Hb')%list_elem_of_fmap.
        apply list_elem_of_filter in Hb' as [Hc _].
        assert (Hconf : conf b = conf b') by (by injection Hrec).
        rewrite Hconf. exact Hc.
      * intros Hc. apply list_elem_of_fmap. exists b. split; [done|].
        apply list_elem_of_filter. by split.
Qed.

(** What a run of the float32 handler that answers with detections
    went through. *)
Lemma detect32_answer_inv (contents : Contents) (final : list Detection)
    (calls : list Z) :
  F32.detect decode to_bgr model names contents = (JsonDetections final, calls) ->
  exists detections,
    F32.apply_nms detections IOU_THRESHOLD = Some final.
Proof.
  unfold F32.detect. destruct (decode contents) as [image|]; [|done].
  destruct (accumulate model names (to_bgr image)).1 as [detections|]; [|done].
  destruct (F32.apply_nms detections IOU_THRESHOLD) as [out|] eqn:Hout; [|done].
  intros [= <- _]. by exists detections.
Qed.

(** X15: in an answer of the handler no detection is suppressed by one
    that precedes it: for a returned detection and any later one the
    kernel's float32 test against [IOU_THRESHOLD], which is 0.5, is
    false. *)
Theorem detect32_answer_pairwise (contents : Contents) (final : list Detection)
    (calls : list Z) :
  F32.detect decode to_bgr model names contents = (JsonDetections final, calls) ->
  ForallOrdPairs
    (fun x y => F32.suppresses IOU_THRESHOLD (box x) (box y) = false) final.
Proof.
  intros [detections Hnms]%detect32_answer_inv.
  rewrite apply_nms32_greedy in Hnms. injection Hnms as <-.
  apply greedy_select_pairwise.
Qed.

End HandlerRecords.

Lemma detect_multi_scale_witness :
  let hit c := mkRawBox c 0 (mkBox 0 0 10 10) in
  let stop c := mkDetection "stop" c (mkBox 0 0 10 10) in
  (detect sample_decode id sample_model sample_names "img"%string).2
    `prefix_of` [640; 960; 1280]%Z
  /\ accumulate sample_model sample_names (id "img"%string)
     = (Some [stop (4 # 10); stop (9 # 10)], [640; 960; 1280]%Z)
  /\ (detect sample_decode id sample_model sample_names "img"%string).2
     = [640; 960; 1280]%Z
  /\ (forall b, b ∈ [hit (3 # 10); hit (4 # 10); hit (9 # 10)] ->
        mkDetection (sample_names (cls b)) (conf b) (xyxy b)
          ∈ [stop (4 # 10); stop (9 # 10)]
        <-> (4 # 10 <= conf b)%Q).
Proof.
  intros hit stop.
  destruct (detect_multi_scale sample_decode id sample_model sample_names
              "img"%string "img"%string eq_refl) as [Hpre Hrun].
  split; [exact Hpre|].
  exact (Hrun [mkResults [hit (3 # 10)]] [mkResults [hit (4 # 10)]]
           [mkResults [hit (9 # 10)]] eq_refl eq_refl eq_refl).
Defined.

Lemma detect32_answer_pairwise_witness :
  ForallOrdPairs
    (fun x y => F32.suppresses IOU_THRESHOLD (box x) (box y) = false)
    [mkDetection "stop" (9 # 10) boxA; mkDetection "stop" (8 # 10) boxB].
Proof.
  apply (detect32_answer_pairwise sample_decode id twin_model sample_names
           "img"%string
           [mkDetection "stop" (9 # 10) boxA; mkDetection "stop" (8 # 10) boxB]
           scales).
  by vm_compute.
Defined.
